(** * option-parser.js: the command-line option schema and parser

    A shallow embedding of [src/option-parser.js] (the [OptionParser] and
    [Option] objects, the string helpers they rely on, the banner
    formatters and the loop in which the host reads the options back),
    followed by the properties of the parser that the specification
    states and by further properties read off the code.

    Conventions of the embedding:
    - a JavaScript string is a [string] whose characters are its code
      units: the model covers the strings whose code units are below 256
      (the Latin-1 range), and a character with code [n] stands for the
      code unit [n].  On these, [toLowerCase] is the function JavaScript
      computes: it maps A-Z and the capital letters 192-214 and 216-222
      to the letter 32 places further;
    - a dynamically typed slot ([value.current], [value.default],
      [value.required], [required]) holds a [jsval]; numbers are the
      integers a JavaScript number holds exactly;
    - a slot that holds a string or [null] ([longCode], [shortCode],
      [description], [id]) is an [option string], [None] being [null];
    - [self.options] is a [list Option]; an Option object is identified by
      its index in that array, and [opt.value.current = v] is an update of
      the array at that index;
    - the callback given to [parse] is an observer: every call made to it
      is appended to a log, in order. *)

From Stdlib Require Import ZArith Ascii String DecimalString Lia.
From stdpp Require Import base list strings gmap.

Open Scope string_scope.
Open Scope list_scope.

(** ** JavaScript values *)

Inductive jsval : Type :=
  | JUndefined
  | JNull
  | JBool (b : bool)
  | JNum (n : Z)
  | JStr (s : string).

(** ToBoolean: [undefined], [null], [false], [0] and [""] are falsy. *)
Definition truthy (v : jsval) : bool :=
  match v with
  | JUndefined | JNull => false
  | JBool b => b
  | JNum n => negb (n =? 0)%Z
  | JStr s => negb (s =? "")
  end.

(** [a || b] *)
Definition js_or (a b : jsval) : jsval := if truthy a then a else b.

(** [a || b] on slots that hold a string or nothing. *)
Definition str_or (a b : option string) : option string :=
  match a with
  | Some s => if s =? "" then b else a
  | None => b
  end.

(** [===] on slots that hold a string or [null]. *)
Definition str_eqb (a b : option string) : bool :=
  match a, b with
  | Some x, Some y => x =? y
  | None, None => true
  | _, _ => false
  end.

(** String conversion as done by [+] with a string operand.  A number is
    printed by its decimal digits, which is what JavaScript prints for the
    integers it holds exactly (magnitude at most [2^53]); larger
    magnitudes are outside the model (from [10^21] on JavaScript prints an
    exponent). *)
Definition Z_to_string (n : Z) : string := NilEmpty.string_of_int (Z.to_int n).

Definition js_to_string (v : jsval) : string :=
  match v with
  | JUndefined => "undefined"
  | JNull => "null"
  | JBool true => "true"
  | JBool false => "false"
  | JNum n => Z_to_string n
  | JStr s => s
  end.

Definition str_to_string (a : option string) : string :=
  match a with
  | Some s => s
  | None => "null"
  end.

(** ** String helpers *)

(** [s.startsWith(str)] *)
Definition startsWith (s str : string) : bool := String.prefix str s.

(** [s.slice(n)] for [0 <= n] *)
Fixpoint slice_from (n : nat) (s : string) : string :=
  match n, s with
  | O, _ => s
  | S n', String _ s' => slice_from n' s'
  | S _, EmptyString => EmptyString
  end.

(** [s.slice(0, n)] for [0 <= n] *)
Fixpoint slice_to (n : nat) (s : string) : string :=
  match n, s with
  | S n', String c s' => String c (slice_to n' s')
  | _, _ => EmptyString
  end.

(** [s.indexOf(pat)]: the first position of [pat] in [s], or [-1]. *)
Definition indexOf (s pat : string) : Z :=
  match String.index 0 pat s with
  | Some n => Z.of_nat n
  | None => (-1)%Z
  end.

(** [s.split(sep)] for a separator of one character. *)
Fixpoint split (sep : ascii) (s : string) : list string :=
  match s with
  | EmptyString => [EmptyString]
  | String c s' =>
      if Ascii.eqb c sep then EmptyString :: split sep s'
      else match split sep s' with
           | h :: t => String c h :: t
           | [] => [String c EmptyString]
           end
  end.

Definition is_upper (c : ascii) : bool :=
  let n := nat_of_ascii c in (65 <=? n)%nat && (n <=? 90)%nat.

Definition is_lower (c : ascii) : bool :=
  let n := nat_of_ascii c in (97 <=? n)%nat && (n <=? 122)%nat.

(** The capital letters among the code units 128-255 (the letters
    192-222 but for the multiplication sign 215). *)
Definition is_upper_latin1 (c : ascii) : bool :=
  let n := nat_of_ascii c in
  ((192 <=? n)%nat && (n <=? 214)%nat) || ((216 <=? n)%nat && (n <=? 222)%nat).

(** The lower-case form of a code unit below 256: each capital letter
    has its small letter 32 places further. *)
Definition lower_char (c : ascii) : ascii :=
  if is_upper c || is_upper_latin1 c
  then ascii_of_nat (nat_of_ascii c + 32) else c.

Definition upper_char (c : ascii) : ascii :=
  if is_lower c then ascii_of_nat (nat_of_ascii c - 32) else c.

(** [s.toLowerCase()] *)
Fixpoint toLowerCase (s : string) : string :=
  match s with
  | EmptyString => EmptyString
  | String c s' => String (lower_char c) (toLowerCase s')
  end.

(** [s.toCamelCase()]: [s.replace(/-([a-z])/g, g => g[1].toUpperCase())].
    The scan is left to right and a replaced pair is not looked at again. *)
Fixpoint toCamelCase (s : string) : string :=
  match s with
  | EmptyString => EmptyString
  | String c s' =>
      match s' with
      | String d s'' =>
          if Ascii.eqb c "-" && is_lower d
          then String (upper_char d) (toCamelCase s'')
          else String c (toCamelCase s')
      | EmptyString => String c EmptyString
      end
  end.

(** ** The option kinds ([OptionType]) *)

Inductive OptionType : Type := normal | help | separator | note | footer.

Definition OptionType_eqb (a b : OptionType) : bool :=
  match a, b with
  | normal, normal | help, help | separator, separator
  | note, note | footer, footer => true
  | _, _ => false
  end.

(** ** The Option object *)

Module Value.
Record t : Type := mk {
  current : jsval;
  default : jsval;
  required : jsval
}.
End Value.

Record Option : Type := mkOption {
  longCode : option string;
  shortCode : option string;
  description : option string;
  type : OptionType;
  value : Value.t;
  required : jsval;
  id : option string
}.

(** The object given to the [Option] constructor.  An absent key is
    [None] (or [JUndefined] for a dynamically typed one). *)
Module ValueParams.
Record t : Type := mk {
  current : jsval;
  default : jsval;
  required : jsval
}.
End ValueParams.

Module OptionParams.
Record t : Type := mk {
  longCode : option string;
  lCode : option string;
  shortCode : option string;
  sCode : option string;
  description : option string;
  desc : option string;
  type : option OptionType;
  value : option ValueParams.t;
  required : jsval;
  id : option string
}.

(** [{}] *)
Definition empty : t :=
  mk None None None None None None None None JUndefined None.
End OptionParams.

(** [(opt.value && opt.value[k]) || dflt] *)
Definition value_slot (v : option ValueParams.t) (k : ValueParams.t -> jsval)
    (dflt : jsval) : jsval :=
  match v with
  | Some vp => js_or (k vp) dflt
  | None => dflt
  end.

(** [new Option(opt)] (lines 269-287; the [data] bag is not modelled). *)
Definition createOption (opt : OptionParams.t) : Option :=
  let lc := str_or (str_or (OptionParams.longCode opt) (OptionParams.lCode opt)) None in
  let sc := str_or (str_or (OptionParams.shortCode opt) (OptionParams.sCode opt)) None in
  {| longCode := lc;
     shortCode := sc;
     description :=
       str_or (str_or (OptionParams.description opt) (OptionParams.desc opt)) None;
     type := match OptionParams.type opt with Some t => t | None => normal end;
     value :=
       {| Value.current :=
            value_slot (OptionParams.value opt) ValueParams.current JNull;
          Value.default :=
            value_slot (OptionParams.value opt) ValueParams.default JNull;
          Value.required :=
            value_slot (OptionParams.value opt) ValueParams.required (JBool false) |};
     required := js_or (OptionParams.required opt) (JBool false);
     id := str_or (str_or (str_or (OptionParams.id opt) lc) sc) None |}.

(** *** Accessors *)

Definition getCode (o : Option) : option string :=
  str_or (str_or (longCode o) (shortCode o)) None.

Definition getValue (o : Option) : jsval := Value.current (value o).

Definition hasDefaultValue (o : Option) : jsval := Value.default (value o).

Definition valueIsRequired (o : Option) : jsval := Value.required (value o).

Definition getId (o : Option) : option string :=
  match str_or (str_or (str_or (id o) (longCode o)) (shortCode o)) None with
  | Some s => Some (toCamelCase s)
  | None => id o
  end.

(** [opt.value.current = v] *)
Definition set_current (v : jsval) (o : Option) : Option :=
  {| longCode := longCode o;
     shortCode := shortCode o;
     description := description o;
     type := type o;
     value := {| Value.current := v;
                 Value.default := Value.default (value o);
                 Value.required := Value.required (value o) |};
     required := required o;
     id := id o |}.

(** ** The formatter of the [normal] and [help] kinds *)

Definition nl : string := String (ascii_of_nat 10) EmptyString.

(** The text [f s] when the slot holds a non-empty string, nothing
    otherwise: [if (slot) { s += ... }]. *)
Definition when_str (a : option string) (f : string -> string) : string :=
  match a with
  | Some s => if s =? "" then "" else f s
  | None => ""
  end.

(** [OptionType.normal(opt)] (lines 5-33) *)
Definition OptionType_normal (opt : Option) : string :=
  "   "
  +:+ when_str (shortCode opt) (fun c => "-" +:+ c +:+ ", ")
  +:+ when_str (longCode opt) (fun c => "--" +:+ c)
  +:+ (if truthy (valueIsRequired opt) then "[=]" else "")
  +:+ ": "
  +:+ when_str (description opt) (fun d => d)
  +:+ (if truthy (hasDefaultValue opt)
      then " [default: " +:+ js_to_string (Value.default (value opt)) +:+ "]"
      else "")
  +:+ nl.


(** ** The registry ([OptionParser]) *)

Record OptionParser : Type := mkOptionParser {
  args : list string;
  scriptName : string;
  options : list Option
}.

(** [OptionParser.create(system.args)], the way the host builds it:
    [this.args = args || []], [this.scriptName = scriptName || this.args[0] || ""],
    [this.options = options || []] with the last two arguments absent. *)
Definition create (argv : list string) : OptionParser :=
  {| args := argv;
     scriptName := match argv !! 0%nat with Some s => s | None => "" end;
     options := [] |}.

(** The error object. *)
Record error : Type := mkError { msg : string; code : Z }.

(** [OptionParser.generateError(msg, code)] (lines 131-136):
    [{ msg: msg || "", code: code || -1 }]. *)
Definition generateError (m : string) (c : option Z) : error :=
  {| msg := m;
     code := match c with
             | Some z => if (z =? 0)%Z then (-1)%Z else z
             | None => (-1)%Z
             end |}.

(** The test of [findOption]'s loop body (lines 175-179). *)
Definition matches (ident : option string) (o : Option) : bool :=
  str_eqb (getId o) ident || str_eqb (longCode o) ident || str_eqb (shortCode o) ident.

(** The loop of [findOption], from index [k] on. *)
Fixpoint findOption_from (k : nat) (l : list Option) (ident : option string)
    : option (nat * Option) :=
  match l with
  | [] => None
  | o :: l' => if matches ident o then Some (k, o) else findOption_from (S k) l' ident
  end.

(** [self.findOption(id)] (lines 171-185): the first Option that matches,
    with its index in [self.options]; [None] is [null]. *)
Definition findOption (opts : list Option) (ident : option string)
    : option (nat * Option) :=
  findOption_from 0 opts ident.

(** One round of [addOption]: lines 149-153 and 156-160. *)
Definition addOne (self : OptionParser) (op : OptionParams.t) : OptionParser :=
  let option := createOption op in
  match findOption (options self) (getId option) with
  | Some _ => self
  | None => {| args := args self;
               scriptName := scriptName self;
               options := options self ++ [option] |}
  end.

(** The argument of [addOption]: one spec, or an array of them. *)
Inductive addArg : Type :=
  | One (op : OptionParams.t)
  | Many (ops : list OptionParams.t).

(** [self.addOption(optionParams)] (lines 143-164); the result is [self]. *)
Definition addOption (optionParams : addArg) (self : OptionParser) : OptionParser :=
  match optionParams with
  | Many ops => fold_left addOne ops self
  | One op => addOne self op
  end.

(** ** [parse] *)

(** A call made to the callback. *)
Inductive cb_call : Type :=
  | CbHelp                          (* callback(true, null) *)
  | CbError (e : error)             (* callback(error, null) *)
  | CbDone (opts : list Option).    (* callback(null, self.options) *)

Inductive exn : Type :=
  | TypeError (what : string).

(** What [parse] holds while it runs: the options array, the calls made
    to the callback so far, and the locals [argCode] ([None] while it is
    [undefined]) and [i].  The other locals are assigned before each use. *)
Record pstate : Type := mkState {
  st_options : list Option;
  st_calls : list cb_call;
  st_argCode : option string;
  st_i : nat
}.

Inductive result : Type :=
  | Returned (st : pstate)
  | Thrown (e : exn) (st : pstate).

Definition log (c : cb_call) (st : pstate) : pstate :=
  mkState (st_options st) (st_calls st ++ [c]) (st_argCode st) (st_i st).

Definition set_argCode (c : string) (st : pstate) : pstate :=
  mkState (st_options st) (st_calls st) (Some c) (st_i st).

Definition set_i (n : nat) (st : pstate) : pstate :=
  mkState (st_options st) (st_calls st) (st_argCode st) n.

(** [opt.value.current = v] for the Option [opt] found at index [k]. *)
Definition assign (k : nat) (opt : Option) (v : jsval) (st : pstate) : pstate :=
  mkState (<[k := set_current v opt]> (st_options st))
          (st_calls st) (st_argCode st) (st_i st).

(** Lines 218-221: cut the code at an [=] that is not its first character. *)
Definition strip_inline (argCode : string) : string :=
  let index := indexOf argCode "=" in
  if (index >=? 1)%Z then slice_to (Z.to_nat index) argCode else argCode.

(** [arg.split("=")[1]] *)
Definition inline_value (arg : string) : jsval :=
  match split "=" arg !! 1%nat with
  | Some v => JStr v
  | None => JUndefined
  end.

(** [!nextArg || (nextArg && nextArg.startsWith("-"))] *)
Definition no_value_follows (nextArg : option string) : bool :=
  match nextArg with
  | None => true
  | Some n => (n =? "") || startsWith n "-"
  end.

(** Lines 211-215: the value of [argCode] after the test of the prefix;
    a token with neither prefix leaves it as it was ([prev]). *)
Definition argCode_of (arg : string) (prev : option string) : option string :=
  if startsWith arg "--" then Some (toLowerCase (slice_from 2 arg))
  else if startsWith arg "-" then Some (slice_from 1 arg)
  else prev.

(** The body of the loop over the tokens (lines 209-248) for [arg = args[i]]. *)
Definition parse_arg (argv : list string) (arg : string) (st : pstate) : result :=
  match argCode_of arg (st_argCode st) with
  | None => Thrown (TypeError "undefined has no property indexOf") st
  | Some c0 =>
      let argCode := strip_inline c0 in
      let st := set_argCode argCode st in
      match findOption (st_options st) (Some argCode) with
      | Some (k, opt) =>
          let st := if OptionType_eqb (type opt) help then log CbHelp st else st in
          let nextArg := argv !! S (st_i st) in
          if (indexOf arg "=" >=? 1)%Z then
            Returned (assign k opt (inline_value arg) st)
          else if no_value_follows nextArg then
            let st :=
              if truthy (valueIsRequired opt) && negb (truthy (getValue opt))
              then log (CbError (generateError (argCode +:+ " requires a value") None)) st
              else st in
            Returned (assign k opt (JBool true) st)
          else
            Returned (assign k opt
                        (match nextArg with Some n => JStr n | None => JUndefined end)
                        (set_i (S (st_i st)) st))
      | None =>
          Returned (log (CbError (generateError (argCode +:+ " not found in options") None)) st)
      end
  end.

(** The loop [for (i = 1; i < self.args.length; i += 1)] (line 208), with
    [fuel] rounds at most. *)
Fixpoint parse_loop (argv : list string) (fuel : nat) (st : pstate) : result :=
  match fuel with
  | O => Returned st
  | S fuel' =>
      match argv !! st_i st with
      | None => Returned st
      | Some arg =>
          match parse_arg argv arg st with
          | Returned st' => parse_loop argv fuel' (set_i (S (st_i st')) st')
          | Thrown e st' => Thrown e st'
          end
      end
  end.

(** The body of the pass over the required switches (lines 252-264). *)
Definition check_required (opts : list Option) (option : Option) : list cb_call :=
  match required option with
  | JStr s =>
      if truthy (JStr s) then
        match findOption opts (Some s) with
        | Some (_, found) =>
            if negb (truthy (getValue option)) && negb (truthy (getValue found))
            then [CbError (generateError
                    (str_to_string (getCode option) +:+ " -OR- "
                     +:+ str_to_string (getCode found) +:+ " is required") None)]
            else []
        | None => []
        end
      else []
  | r =>
      if truthy r && negb (truthy (getValue option))
      then [CbError (generateError
              (str_to_string (getCode option) +:+ " is required") None)]
      else []
  end.

Definition required_pass (opts : list Option) : list cb_call :=
  flat_map (check_required opts) opts.

(** [self.parse(callback)] (lines 203-267).  The loop needs at most one
    round per token. *)
Definition parse (self : OptionParser) : result :=
  match parse_loop (args self) (length (args self))
          (mkState (options self) [] None 1) with
  | Returned st =>
      Returned (mkState (st_options st)
                  (st_calls st ++ required_pass (st_options st)
                   ++ [CbDone (st_options st)])
                  (st_argCode st) (st_i st))
  | Thrown e st => Thrown e st
  end.

(** The calls [parse] made to the callback, and the options it left. *)
Definition calls_of (r : result) : list cb_call :=
  match r with Returned st | Thrown _ st => st_calls st end.

Definition options_of (r : result) : list Option :=
  match r with Returned st | Thrown _ st => st_options st end.

(** ** The host's schema, as far as the scenarios need it *)

(** [url], [html] and [output-base64-format] as the host registers them. *)
Definition spec_url : OptionParams.t :=
  OptionParams.mk (Some "url") None (Some "u") None (Some "a URL to load") None None
    (Some (ValueParams.mk JUndefined JUndefined (JBool true))) (JStr "html") None.

Definition spec_html : OptionParams.t :=
  OptionParams.mk (Some "html") None (Some "h") None
    (Some "string of HTML to be loaded (HTML must be valid-ish)") None None
    (Some (ValueParams.mk JUndefined JUndefined (JBool true))) (JStr "url") None.

Definition spec_format : OptionParams.t :=
  OptionParams.mk (Some "output-base64-format") None (Some "OF") None
    (Some "output page image base64 format") None None
    (Some (ValueParams.mk JUndefined (JStr "PNG") (JBool true))) JUndefined None.

(** [OptionParser.create(argv).addOption(specs)] *)
Definition host (specs : list OptionParams.t) (argv : list string) : OptionParser :=
  addOption (Many specs) (create argv).

(** The Option a token resolves to (lines 211-224), when [argCode] is
    defined. *)
Definition resolve (opts : list Option) (arg : string) (prev : option string)
    : option (nat * Option) :=
  match argCode_of arg prev with
  | Some c0 => findOption opts (Some (strip_inline c0))
  | None => None
  end.

(** ** Notions used in the statements *)

(** An Option with its [value.current] forgotten. *)
Definition erase (o : Option) : Option := set_current JNull o.

(** Two arrays of options are the same schema when they agree once
    [value.current] is erased. *)
Definition same_schema (l l' : list Option) : Prop := erase <$> l = erase <$> l'.

(** The state [parse] stopped in, whether it returned or threw. *)
Definition state_of (r : result) : pstate :=
  match r with Returned st | Thrown _ st => st end.

(** The error objects among the calls made to the callback. *)
Definition error_calls (l : list cb_call) : list error :=
  flat_map (fun c => match c with CbError e => [e] | _ => [] end) l.


(** A registry built by calls to [addOption]. *)
Definition register (adds : list addArg) (self : OptionParser) : OptionParser :=
  fold_left (fun r a => addOption a r) adds self.

(** Every registered Option is the one [findOption] returns for its own
    normalized id. *)
Definition ids_resolve (opts : list Option) : Prop :=
  forall k o, opts !! k = Some o -> findOption opts (getId o) = Some (k, o).

(** Every registered Option came out of the constructor. *)
Definition constructed (opts : list Option) : Prop :=
  Forall (fun o => exists op, o = createOption op) opts.

(** What the constructor leaves in a slot filled by [a || b || null]:
    [null] or a non-empty string. *)
Definition normal_slot (a : option string) : Prop :=
  a = None \/ exists s, a = Some s /\ (s =? "") = false.

(** Whether the character [c] occurs in [s]. *)
Fixpoint has_char (c : ascii) (s : string) : bool :=
  match s with
  | EmptyString => false
  | String d s' => Ascii.eqb d c || has_char c s'
  end.

(** The state of [parse] at the token [--url] of [["prog"; "--url"]],
    with [url] (which requires a value) as the only option. *)
Definition url_alone : pstate := mkState [createOption spec_url] [] None 1.

(** An option whose long code has a capital letter. *)
Definition spec_Foo : OptionParams.t :=
  OptionParams.mk (Some "Foo") None None None None None None None JUndefined None.

(** A note registered under an id with a hyphen, and no code. *)
Definition spec_my_note : OptionParams.t :=
  OptionParams.mk None None None None (Some "a note") None (Some note) None
    JUndefined (Some "my-note").

(** ** The rest of the module

    The [repeat] helper, the remaining formatters with [getBanner], and
    the loop in which the host reads the options back. *)

(** ToInt32, applied by [&] and [>>] to their operands. *)
Definition to_int32 (z : Z) : Z := ((z + 2 ^ 31) mod 2 ^ 32 - 2 ^ 31)%Z.

(** The [while] loop of [String.prototype.repeat] (lines 82-87), with
    [fuel] rounds at most. *)
Fixpoint repeat_loop (fuel : nat) (count : Z) (result pattern : string) : string :=
  match fuel with
  | O => result
  | S fuel' =>
      if (count >? 0)%Z then
        repeat_loop fuel'
          (Z.shiftr (to_int32 count) 1)
          (if negb (Z.land (to_int32 count) 1 =? 0)%Z
           then result +:+ pattern else result)
          (pattern +:+ pattern)
      else result
  end.

(** [s.repeat(count)] (lines 75-90) for an integer [count].  After the
    first shift [count] is below [2^30], so 32 rounds are enough. *)
Definition String_repeat (s : string) (count : Z) : string :=
  if (count <? 1)%Z then "" else repeat_loop 32 count "" s.

(** [n] copies of [s], one after the other. *)
Fixpoint copies (n : nat) (s : string) : string :=
  match n with
  | O => ""
  | S n' => s +:+ copies n' s
  end.

(** Whether [s] has a hyphen followed by a lower-case letter, the pattern
    of [toCamelCase]. *)
Fixpoint has_hyphen_lower (s : string) : bool :=
  match s with
  | EmptyString => false
  | String c s' =>
      match s' with
      | String d _ => (Ascii.eqb c "-" && is_lower d) || has_hyphen_lower s'
      | EmptyString => false
      end
  end.

(** An Option with its [data] bag.  Of the bag the module reads the
    [length] entry only (lines 46 and 318): [None] when it is absent, a
    number otherwise. *)
Record Entry : Type := mkEntry {
  entry_option : Option;
  data_length : option Z
}.

(** The [data] part of [new Option(opt)] (lines 285-298), as far as
    [length] goes: [self.data = opt.data || {}], then the key [length] of
    [opt], which is none of the Option's own keys, is copied into the bag
    when its value is truthy.  [bag_length] is [opt.data.length] and
    [extra_length] is [opt.length]. *)
Definition createEntry (opt : OptionParams.t) (bag_length extra_length : option Z)
    : Entry :=
  {| entry_option := createOption opt;
     data_length :=
       match extra_length with
       | Some n => if (n =? 0)%Z then bag_length else Some n
       | None => bag_length
       end |}.

(** [opt.data.length || 1] *)
Definition length_or_1 (e : Entry) : Z :=
  match data_length e with
  | Some n => if (n =? 0)%Z then 1%Z else n
  | None => 1%Z
  end.

(** [OptionType.separator(opt)] (lines 37-47) *)
Definition OptionType_separator (e : Entry) : string :=
  (match description (entry_option e) with
   | Some d =>
       if d =? "" then ""
       else if startsWith d "--" then nl +:+ String_repeat "-" 80
       else if startsWith d " --" then nl +:+ "   " +:+ String_repeat "-" 77
       else ""
   | None => ""
   end)
  +:+ String_repeat nl (length_or_1 e).






(** The key under which [obj[k] = v] stores when [k] is a string or
    [null]. *)
Definition property_key (k : option string) : string := str_to_string k.

(** The object [page.config]: its own properties, and whether
    [Object.prototype] is still its prototype. *)
Record config : Type := mkConfig {
  own : gmap string jsval;
  has_prototype : bool
}.

(** [{}] *)
Definition empty_config : config := mkConfig ∅ true.

(** [config[k] = v] for a value [v] that is a primitive or [null].  Under
    [Object.prototype] the key [__proto__] is an accessor: the assignment
    stores no property; it takes the prototype away when [v] is [null] and
    does nothing for a primitive.  Any other key, and [__proto__] once the
    prototype is gone, becomes an own property. *)
Definition config_set (k : string) (v : jsval) (c : config) : config :=
  if (k =? "__proto__") && has_prototype c
  then mkConfig (own c) (match v with JNull => false | _ => true end)
  else mkConfig (<[k := v]> (own c)) (has_prototype c).

(** The loop in which the host reads the options back (lines 774-776):
    [page.config[opt.getId()] = opt.getValue()], from [page.config = {}]. *)
Definition build_config (opts : list Option) : config :=
  fold_left (fun c opt => config_set (property_key (getId opt)) (getValue opt) c)
    opts empty_config.

(** The specs an argument of [addOption] brings, in order. *)
Definition specs_of (a : addArg) : list OptionParams.t :=
  match a with
  | One op => [op]
  | Many ops => ops
  end.

(** The calls the loop over the tokens and the pass over the required
    switches make: a help request, or an error object whose code is [-1]. *)
Definition report_call (c : cb_call) : Prop :=
  match c with
  | CbHelp => True
  | CbError e => code e = (-1)%Z
  | CbDone _ => False
  end.

(** Lines 226-228: a [help] Option gets its call before its value. *)
Definition after_help (opt : Option) (st : pstate) : pstate :=
  if OptionType_eqb (type opt) help then log CbHelp st else st.

(** The calls of lines 226-228. *)
Definition help_calls (opt : Option) : list cb_call :=
  if OptionType_eqb (type opt) help then [CbHelp] else [].


(** An option that must be given, and one whose [required] names no
    registered option. *)
Definition spec_must : OptionParams.t :=
  OptionParams.mk (Some "out") None None None None None None None (JBool true) None.

Definition spec_dangling : OptionParams.t :=
  OptionParams.mk (Some "in") None None None None None None None (JStr "nowhere") None.






(** An Option registered under the id [zzz] with the long code [a-b],
    and one whose only name is the long code [a-b]. *)
Definition spec_alias : OptionParams.t :=
  OptionParams.mk (Some "a-b") None None None None None None None JUndefined
    (Some "zzz").

Definition spec_a_b : OptionParams.t :=
  OptionParams.mk (Some "a-b") None None None None None None None JUndefined None.

(** Whether a call to the callback is the final one. *)
Definition is_done (c : cb_call) : bool :=
  match c with CbDone _ => true | _ => false end.

(** * Properties *)

(** ** Strings *)

Lemma str_eqb_eq (a b : option string) : str_eqb a b = true <-> a = b.
Proof.
  destruct a as [x|], b as [y|]; simpl; try (split; congruence).
  rewrite String.eqb_eq. split; congruence.
Qed.

Lemma str_eqb_refl (a : option string) : str_eqb a a = true.
Proof. by apply str_eqb_eq. Qed.

Lemma capital_spec (c : ascii) :
  is_upper c || is_upper_latin1 c = true
  <-> 65 <= nat_of_ascii c <= 90 \/ 192 <= nat_of_ascii c <= 214
      \/ 216 <= nat_of_ascii c <= 222.
Proof.
  unfold is_upper, is_upper_latin1.
  rewrite !orb_true_iff, !andb_true_iff, !Nat.leb_le. tauto.
Qed.

Lemma lower_char_idem (c : ascii) : lower_char (lower_char c) = lower_char c.
Proof.
  unfold lower_char. destruct (is_upper c || is_upper_latin1 c) eqn:Hu;
    [|by rewrite Hu].
  apply capital_spec in Hu.
  destruct (is_upper _ || is_upper_latin1 _) eqn:Hl; [|done].
  apply capital_spec in Hl. rewrite nat_ascii_embedding in Hl by lia. lia.
Qed.

(** É is lowered to é, as code units 201 and 233. *)
Lemma toLowerCase_E_acute :
  toLowerCase (String (ascii_of_nat 201) "Cole") = String (ascii_of_nat 233) "cole".
Proof. reflexivity. Qed.

Lemma toLowerCase_idem (s : string) : toLowerCase (toLowerCase s) = toLowerCase s.
Proof. induction s as [|c s IH]; simpl; [done|]. by rewrite lower_char_idem, IH. Qed.

Lemma startsWith_dashes (x : string) : startsWith ("--" +:+ x) "--" = true.
Proof. unfold startsWith. simpl. by destruct x. Qed.

Lemma argCode_of_long (x : string) (prev : option string) :
  argCode_of ("--" +:+ x) prev = Some (toLowerCase x).
Proof. unfold argCode_of. by rewrite startsWith_dashes. Qed.


Lemma split_no_sep (c : ascii) (s : string) :
  has_char c s = false -> split c s = [s].
Proof.
  induction s as [|d s IH]; simpl; [done|].
  intros H. apply orb_false_iff in H as [Hd Hs]. by rewrite Hd, (IH Hs).
Qed.

Lemma split_at_first_sep (c : ascii) (a b : string) :
  has_char c a = false -> split c (a +:+ String c b) = a :: split c b.
Proof.
  induction a as [|d a IH]; simpl.
  - intros _. by rewrite Ascii.eqb_refl.
  - intros H. apply orb_false_iff in H as [Hd Ha]. by rewrite Hd, (IH Ha).
Qed.

Lemma split_head (c : ascii) (s : string) : exists h t, split c s = h :: t.
Proof.
  induction s as [|d s (h & t & IH)]; simpl; [by eexists _, _|].
  destruct (Ascii.eqb d c); [by eexists _, _|]. rewrite IH. by eexists _, _.
Qed.

(** The inline value of [code=value] is the part of [value] before its
    first [=]: all of it when it has none. *)
Lemma inline_value_first_segment (a v : string) :
  has_char "=" a = false ->
  inline_value (a +:+ "=" +:+ v) = JStr (hd "" (split "=" v)).
Proof.
  intros Ha. unfold inline_value.
  change (a +:+ "=" +:+ v) with (a +:+ String "=" v).
  rewrite (split_at_first_sep _ _ _ Ha).
  by destruct (split_head "=" v) as (h & t & ->).
Qed.

Lemma inline_value_whole (a v : string) :
  has_char "=" a = false -> has_char "=" v = false ->
  inline_value (a +:+ "=" +:+ v) = JStr v.
Proof.
  intros Ha Hv. by rewrite (inline_value_first_segment _ _ Ha), (split_no_sep _ _ Hv).
Qed.

(** ** [findOption] *)

Lemma findOption_from_Some k l ident j o :
  findOption_from k l ident = Some (j, o) ->
  k <= j /\ l !! (j - k) = Some o /\ matches ident o = true /\
  (forall n o', n < j - k -> l !! n = Some o' -> matches ident o' = false).
Proof.
  revert k. induction l as [|a l IH]; intros k; simpl; [done|].
  destruct (matches ident a) eqn:Hm.
  - intros [= <- <-]. rewrite Nat.sub_diag. split_and!; [lia|done|done|lia].
  - intros H. apply IH in H as (Hle & Hl & Hmo & Hbefore).
    replace (j - k) with (S (j - S k)) by lia.
    split_and!; [lia|done|done|].
    intros [|n] o' Hn Ho'; simpl in Ho'; [congruence|].
    apply (Hbefore n); [lia|done].
Qed.

Lemma findOption_Some opts ident j o :
  findOption opts ident = Some (j, o) ->
  opts !! j = Some o /\ matches ident o = true /\
  (forall n o', n < j -> opts !! n = Some o' -> matches ident o' = false).
Proof.
  intros H. apply findOption_from_Some in H as (_ & H1 & H2 & H3).
  rewrite Nat.sub_0_r in *. done.
Qed.

Lemma findOption_from_first k l ident j o :
  l !! j = Some o -> matches ident o = true ->
  (forall n o', n < j -> l !! n = Some o' -> matches ident o' = false) ->
  findOption_from k l ident = Some (k + j, o).
Proof.
  revert k j. induction l as [|a l IH]; intros k j Hj Hm Hbefore; [done|].
  simpl. destruct j as [|j]; simpl in Hj.
  - injection Hj as ->. rewrite Hm. by rewrite Nat.add_0_r.
  - rewrite (Hbefore 0 a) by (done || lia).
    rewrite (IH (S k) j Hj Hm).
    + f_equal. f_equal. lia.
    + intros n o' Hn Ho'. apply (Hbefore (S n)); [lia|done].
Qed.

Lemma findOption_first opts ident j o :
  opts !! j = Some o -> matches ident o = true ->
  (forall n o', n < j -> opts !! n = Some o' -> matches ident o' = false) ->
  findOption opts ident = Some (j, o).
Proof. intros. unfold findOption. by erewrite findOption_from_first. Qed.

Lemma findOption_from_None k l ident :
  findOption_from k l ident = None <-> Forall (fun o => matches ident o = false) l.
Proof.
  revert k. induction l as [|a l IH]; intros k; simpl.
  - split; [constructor|done].
  - destruct (matches ident a) eqn:Hm.
    + split; [done|]. intros H. inversion H; congruence.
    + rewrite IH. split; [by constructor|]. intros H. by inversion H.
Qed.

Lemma findOption_from_app k l1 l2 ident :
  findOption_from k (l1 ++ l2) ident =
  match findOption_from k l1 ident with
  | Some r => Some r
  | None => findOption_from (k + length l1) l2 ident
  end.
Proof.
  revert k. induction l1 as [|a l1 IH]; intros k; simpl.
  - by rewrite Nat.add_0_r.
  - destruct (matches ident a); [done|].
    rewrite IH. by replace (S k + length l1) with (k + S (length l1)) by lia.
Qed.

(** ** What [parse] leaves untouched

    [parse] writes [value.current] and nothing else. *)

Lemma erase_set_current v o : erase (set_current v o) = erase o.
Proof. done. Qed.

Lemma matches_erase ident o o' :
  erase o = erase o' -> matches ident o = matches ident o'.
Proof.
  intros H. change (matches ident (erase o) = matches ident (erase o')).
  by rewrite H.
Qed.

Lemma getCode_erase o o' : erase o = erase o' -> getCode o = getCode o'.
Proof. intros H. change (getCode (erase o) = getCode (erase o')). by rewrite H. Qed.

Lemma required_erase o o' : erase o = erase o' -> required o = required o'.
Proof. intros H. change (required (erase o) = required (erase o')). by rewrite H. Qed.

Lemma same_schema_lookup l l' k o :
  same_schema l l' -> l !! k = Some o ->
  exists o', l' !! k = Some o' /\ erase o' = erase o.
Proof.
  unfold same_schema. intros H Hk.
  assert (Hl : (erase <$> l') !! k = Some (erase o)).
  { rewrite <- H, list_lookup_fmap, Hk. done. }
  rewrite list_lookup_fmap in Hl.
  destruct (l' !! k) as [o'|]; simpl in Hl; [|done].
  exists o'. split; congruence.
Qed.

Lemma same_schema_insert opts k o v :
  opts !! k = Some o -> same_schema (<[k := set_current v o]> opts) opts.
Proof.
  intros Hk. unfold same_schema. rewrite list_fmap_insert, erase_set_current.
  apply list_insert_id. by rewrite list_lookup_fmap, Hk.
Qed.

Lemma same_schema_findOption_from l l' k ident :
  same_schema l l' ->
  match findOption_from k l ident with
  | Some (j, o) => exists o', findOption_from k l' ident = Some (j, o')
                             /\ erase o' = erase o
  | None => findOption_from k l' ident = None
  end.
Proof.
  unfold same_schema. revert l' k.
  induction l as [|a l IH]; intros [|a' l'] k H; try done.
  rewrite !fmap_cons in H. apply (f_equal head) in H as Ha.
  apply (f_equal tail) in H as Hl. simpl in Ha, Hl.
  assert (erase a = erase a') as Ha' by congruence.
  simpl. rewrite (matches_erase ident a a' Ha').
  destruct (matches ident a'); [by exists a'|]. by apply IH.
Qed.


(** ** The loop over the tokens *)

Lemma parse_arg_invariant argv arg st :
  same_schema (st_options (state_of (parse_arg argv arg st))) (st_options st)
  /\ st_i st <= st_i (state_of (parse_arg argv arg st)).
Proof.
  unfold parse_arg.
  destruct (argCode_of arg (st_argCode st)) as [c0|]; [|done].
  simpl. destruct (findOption (st_options st) (Some (strip_inline c0)))
    as [[k opt]|] eqn:Hf; [|done].
  apply findOption_Some in Hf as (Hk & _ & _).
  assert (Hs : forall v, same_schema (<[k:=set_current v opt]> (st_options st))
                                     (st_options st))
    by (intros v; by apply same_schema_insert).
  destruct (OptionType_eqb (type opt) help);
    destruct (indexOf arg "=" >=? 1)%Z; simpl;
    try (destruct (no_value_follows (argv !! S (st_i st))); simpl);
    try destruct (truthy (valueIsRequired opt) && negb (truthy (getValue opt)));
    simpl; split; auto.
Qed.

Lemma parse_loop_schema argv fuel st :
  same_schema (st_options (state_of (parse_loop argv fuel st))) (st_options st).
Proof.
  revert st. induction fuel as [|fuel IH]; intros st; simpl; [done|].
  destruct (argv !! st_i st) as [arg|]; [|done].
  pose proof (parse_arg_invariant argv arg st) as [Hs _].
  destruct (parse_arg argv arg st) as [st'|e st']; simpl in *; [|done].
  specialize (IH (set_i (S (st_i st')) st')). unfold same_schema in *.
  simpl in IH. congruence.
Qed.


(** The loop never runs short of rounds: with one round per remaining
    token, more rounds change nothing. *)
Lemma parse_loop_fuel argv fuel n st :
  length argv <= st_i st + fuel ->
  parse_loop argv (fuel + n) st = parse_loop argv fuel st.
Proof.
  revert st. induction fuel as [|fuel IH]; intros st Hlen; simpl.
  - assert (argv !! st_i st = None) as Hnone by (apply lookup_ge_None; lia).
    destruct n; simpl; [done|]. by rewrite Hnone.
  - destruct (argv !! st_i st) as [arg|]; [|done].
    pose proof (parse_arg_invariant argv arg st) as [_ Hi].
    destruct (parse_arg argv arg st) as [st'|e st']; simpl in *; [|done].
    apply IH. simpl. lia.
Qed.

Lemma parse_enough_fuel self n :
  parse_loop (args self) (length (args self) + n) (mkState (options self) [] None 1)
  = parse_loop (args self) (length (args self)) (mkState (options self) [] None 1).
Proof. apply parse_loop_fuel. simpl. lia. Qed.

(** The calls made by [parse]: those of the loop, then those of the pass
    over the required switches, then the final one. *)
Lemma parse_Returned self st :
  parse self = Returned st ->
  exists st0,
    parse_loop (args self) (length (args self)) (mkState (options self) [] None 1)
      = Returned st0
    /\ st_options st = st_options st0
    /\ st_calls st = st_calls st0 ++ required_pass (st_options st) ++ [CbDone (st_options st)]
    /\ same_schema (st_options st) (options self).
Proof.
  unfold parse. intros H.
  pose proof (parse_loop_schema (args self) (length (args self))
                (mkState (options self) [] None 1)) as Hs.
  destruct (parse_loop _ _ _) as [st0|e st0]; [|done].
  injection H as <-. by exists st0.
Qed.

(** [parse] returns when the first token after the program name is a
    switch, or when there is none: from then on [argCode] is defined. *)
Lemma argCode_of_switch (arg : string) (prev : option string) :
  startsWith arg "-" = true -> is_Some (argCode_of arg prev).
Proof.
  intros H. unfold argCode_of. rewrite H. by destruct (startsWith arg "--").
Qed.

Lemma argCode_of_defined (arg c : string) : is_Some (argCode_of arg (Some c)).
Proof.
  unfold argCode_of.
  by destruct (startsWith arg "--"), (startsWith arg "-").
Qed.

Lemma parse_arg_returns argv arg st :
  is_Some (argCode_of arg (st_argCode st)) ->
  exists st', parse_arg argv arg st = Returned st' /\ is_Some (st_argCode st').
Proof.
  intros [c0 Hc]. unfold parse_arg. rewrite Hc.
  destruct (findOption _ _) as [[k opt]|]; [|by eexists].
  destruct (OptionType_eqb (type opt) help);
    destruct (indexOf arg "=" >=? 1)%Z; simpl;
    try (destruct (no_value_follows (argv !! S (st_i st))); simpl);
    try destruct (truthy (valueIsRequired opt) && negb (truthy (getValue opt)));
    by eexists.
Qed.

Lemma parse_loop_returns argv fuel st :
  is_Some (st_argCode st) -> exists st', parse_loop argv fuel st = Returned st'.
Proof.
  revert st. induction fuel as [|fuel IH]; intros st [c Hc]; simpl; [by eexists|].
  destruct (argv !! st_i st) as [arg|]; [|by eexists].
  destruct (parse_arg_returns argv arg st) as (st' & -> & Hst').
  { rewrite Hc. apply argCode_of_defined. }
  by apply IH.
Qed.

Lemma parse_returns_after_switch (self : OptionParser) :
  (args self !! 1 = None
   \/ exists t, args self !! 1 = Some t /\ startsWith t "-" = true) ->
  exists st, parse self = Returned st.
Proof.
  intros Hfirst. unfold parse.
  assert (exists st0, parse_loop (args self) (length (args self))
                        (mkState (options self) [] None 1) = Returned st0)
    as [st0 ->]; [|by eexists].
  destruct (length (args self)) as [|fuel]; simpl; [by eexists|].
  destruct Hfirst as [-> | (t & -> & Ht)]; [by eexists|].
  destruct (parse_arg_returns (args self) t (mkState (options self) [] None 1))
    as (st' & -> & Hst'); [by apply argCode_of_switch|].
  by apply parse_loop_returns.
Qed.

(** ** Required pairs *)


(** ** A switch that no value follows *)

(** C2, as the specification states it, fails: [url] requires a value,
    the token [--url] has no inline value, no value is set and no token
    follows; the error is reported, and [value.current] goes from [null]
    to [true]. *)
Lemma missing_value_still_sets_true :
  findOption (st_options url_alone) (Some "url") = Some (0, createOption spec_url)
  /\ truthy (valueIsRequired (createOption spec_url)) = true
  /\ getValue (createOption spec_url) = JNull
  /\ indexOf "--url" "=" = (-1)%Z
  /\ ["prog"; "--url"] !! S (st_i url_alone) = None
  /\ exists st',
       parse_arg ["prog"; "--url"] "--url" url_alone = Returned st'
       /\ error_calls (st_calls st')
            = [ {| msg := "url requires a value"; code := -1 |} ]
       /\ getValue <$> st_options st' !! 0 = Some (JBool true)
       /\ getValue <$> st_options st' !! 0 <> getValue <$> st_options url_alone !! 0.
Proof.
  split_and!; try reflexivity.
  eexists. split_and!; [reflexivity|reflexivity|reflexivity|discriminate].
Qed.

(** C2, amended.  When a resolved option has no inline value and the next
    token is absent or starts with [-], [parse] sets the option's
    [value.current] to [true] in every case; before that it reports
    "<code> requires a value" exactly when [valueIsRequired()] is truthy
    and no truthy value is set.  (A [help] option first gets its own
    call.)  The token is not consumed twice: [i] is unchanged. *)
Theorem switch_without_value (argv : list string) (arg : string) (st : pstate)
    (c0 : string) (k : nat) (opt : Option) :
  argCode_of arg (st_argCode st) = Some c0 ->
  findOption (st_options st) (Some (strip_inline c0)) = Some (k, opt) ->
  (indexOf arg "=" < 1)%Z ->
  (argv !! S (st_i st) = None
   \/ exists n, argv !! S (st_i st) = Some n /\ startsWith n "-" = true) ->
  exists st',
    parse_arg argv arg st = Returned st'
    /\ st_options st' = <[k := set_current (JBool true) opt]> (st_options st)
    /\ getValue <$> st_options st' !! k = Some (JBool true)
    /\ st_i st' = st_i st
    /\ st_calls st' =
         st_calls st
         ++ (if OptionType_eqb (type opt) help then [CbHelp] else [])
         ++ (if truthy (valueIsRequired opt) && negb (truthy (getValue opt))
             then [CbError (generateError
                     (strip_inline c0 +:+ " requires a value") None)]
             else []).
Proof.
  intros Hcode Hfind Hinline Hnext.
  assert (Hno : no_value_follows (argv !! S (st_i st)) = true).
  { destruct Hnext as [-> | (n & -> & Hn)]; simpl; [done|].
    rewrite Hn. apply orb_true_r. }
  assert (Hge : (indexOf arg "=" >=? 1)%Z = false).
  { destruct (Z.geb_spec (indexOf arg "=") 1); [lia|done]. }
  destruct (findOption_Some _ _ _ _ Hfind) as (Hk & _ & _).
  assert (Hset : getValue <$>
            <[k := set_current (JBool true) opt]> (st_options st) !! k
            = Some (JBool true)).
  { rewrite list_lookup_insert_eq; [done|]. by eapply lookup_lt_Some. }
  unfold parse_arg. rewrite Hcode. simpl. rewrite Hfind, Hge.
  destruct (OptionType_eqb (type opt) help); simpl; rewrite Hno;
    destruct (truthy (valueIsRequired opt) && negb (truthy (getValue opt)));
    simpl; eexists; (split_and!; [reflexivity|reflexivity|exact Hset|reflexivity|]);
    simpl; by rewrite <- ?app_assoc, ?app_nil_r.
Qed.

Lemma switch_without_value_witness :
  exists st',
    parse_arg ["prog"; "--url"] "--url" url_alone = Returned st'
    /\ st_options st'
       = <[0 := set_current (JBool true) (createOption spec_url)]> (st_options url_alone)
    /\ getValue <$> st_options st' !! 0 = Some (JBool true)
    /\ st_i st' = st_i url_alone
    /\ st_calls st' =
         st_calls url_alone
         ++ (if OptionType_eqb (type (createOption spec_url)) help then [CbHelp] else [])
         ++ (if truthy (valueIsRequired (createOption spec_url))
                && negb (truthy (getValue (createOption spec_url)))
             then [CbError (generateError
                     (strip_inline "url" +:+ " requires a value") None)]
             else []).
Proof.
  apply (switch_without_value ["prog"; "--url"] "--url" url_alone "url" 0
           (createOption spec_url)).
  - reflexivity.
  - reflexivity.
  - vm_compute. reflexivity.
  - left. reflexivity.
Defined.

(** ** A token that is not a switch *)

(** C3 fails on the code: when the first token after the program name
    starts with neither [--] nor [-], [argCode] is still [undefined] at
    [argCode.indexOf("=")] (line 218) and [parse] throws a TypeError,
    whatever the schema and the tokens that follow; the callback has not
    been called. *)
Theorem parse_throws_on_bare_token (opts : list Option) (sn : string)
    (rest : list string) :
  parse (mkOptionParser ("prog" :: "foo" :: rest) sn opts)
  = Thrown (TypeError "undefined has no property indexOf") (mkState opts [] None 1).
Proof. reflexivity. Qed.

(** ** An unknown switch *)



(** ** Long switches *)

(** C4 fails on the code for a long code with a capital letter: the
    token is put in lower case (line 212) and compared with [===] against
    the long code as registered (line 177), which is not.  The option
    registered with the long code [Foo] is resolved neither by [--Foo],
    the long code itself, nor by [--foo]: both are reported as "foo not
    found in options" and the option is left without a value. *)
Theorem capital_longCode_not_resolved :
  options (host [spec_Foo] ["prog"; "--Foo"]) = [createOption spec_Foo]
  /\ longCode (createOption spec_Foo) = Some "Foo"
  /\ resolve [createOption spec_Foo] "--Foo" None = None
  /\ resolve [createOption spec_Foo] "--foo" None = None
  /\ calls_of (parse (host [spec_Foo] ["prog"; "--Foo"]))
     = [CbError {| msg := "foo not found in options"; code := -1 |};
        CbDone [createOption spec_Foo]]
  /\ calls_of (parse (host [spec_Foo] ["prog"; "--foo"]))
     = [CbError {| msg := "foo not found in options"; code := -1 |};
        CbDone [createOption spec_Foo]]
  /\ getValue (createOption spec_Foo) = JNull.
Proof. split_and!; reflexivity. Qed.

(** ** The scenarios of the specification *)

(** C6 (scenario B).  With [url] and [html] requiring each other and the
    tokens [["prog"; "--url"; "http://x"]], [parse] returns after one call
    to the callback, [(null, options)], the options being [url] then
    [html]; [url] holds ["http://x"] and [html] holds [null]. *)
Theorem scenario_B_success :
  exists st,
    parse (host [spec_url; spec_html] ["prog"; "--url"; "http://x"]) = Returned st
    /\ st_calls st = [CbDone (st_options st)]
    /\ error_calls (st_calls st) = []
    /\ getId <$> st_options st = [Some "url"; Some "html"]
    /\ getValue <$> st_options st = [JStr "http://x"; JNull]
    /\ same_schema (st_options st)
         (options (host [spec_url; spec_html] ["prog"; "--url"; "http://x"])).
Proof. eexists. split_and!; reflexivity. Qed.

(** Scenario C: the inline value [JPEG] keeps its case and replaces what
    [value.current] held; the declared default stays in [value.default]. *)
Lemma scenario_C_inline_value :
  getValue <$> options_of
    (parse (host [spec_format] ["prog"; "--output-base64-format=JPEG"]))
  = [JStr "JPEG"]
  /\ calls_of (parse (host [spec_format] ["prog"; "--output-base64-format=JPEG"]))
     = [CbDone (options_of
          (parse (host [spec_format] ["prog"; "--output-base64-format=JPEG"])))].
Proof. split; reflexivity. Qed.

(** C7 fails on the code for a value that contains [=]: the value is
    taken as [arg.split("=")[1]] (line 234), the text between the first
    and the second [=], so [--url=http://x?a=b] leaves ["http://x?a"] in
    [value.current]. *)
Theorem inline_value_cut_at_second_equals :
  getValue <$> options_of (parse (host [spec_url] ["prog"; "--url=http://x?a=b"]))
  = [JStr "http://x?a"]
  /\ inline_value "--url=http://x?a=b" = JStr "http://x?a"
  /\ slice_from (Z.to_nat (indexOf "--url=http://x?a=b" "=") + 1) "--url=http://x?a=b"
     = "http://x?a=b".
Proof. split_and!; reflexivity. Qed.

(** ** Registration *)

Lemma matches_own_id (o : Option) : matches (getId o) o = true.
Proof. unfold matches. by rewrite str_eqb_refl. Qed.

Lemma findOption_app_new opts o ident :
  findOption opts ident = None -> matches ident o = true ->
  findOption (opts ++ [o]) ident = Some (length opts, o).
Proof.
  unfold findOption. intros Hnone Hm.
  rewrite findOption_from_app, Hnone. simpl. by rewrite Hm.
Qed.

Lemma findOption_app_old opts o ident r :
  findOption opts ident = Some r -> findOption (opts ++ [o]) ident = Some r.
Proof. unfold findOption. intros H. by rewrite findOption_from_app, H. Qed.

(** C8.  Registering a spec whose normalized id equals that of a spec
    registered just before changes nothing, whatever the registry held;
    the same holds when the two come in one array.  From the empty
    registry the schema ends with one Option, built from the first spec.
    [addOption] returns the registry it was called on: its [args] and
    [scriptName] are as before. *)
Theorem addOption_same_id_once (self : OptionParser) (s1 s2 : OptionParams.t)
    (argv : list string) :
  getId (createOption s1) = getId (createOption s2) ->
  addOption (One s2) (addOption (One s1) self) = addOption (One s1) self
  /\ addOption (Many [s1; s2]) self = addOption (One s1) self
  /\ options (addOption (One s2) (addOption (One s1) (create argv)))
     = [createOption s1]
  /\ args (addOption (One s2) (addOption (One s1) self)) = args self
  /\ scriptName (addOption (One s2) (addOption (One s1) self)) = scriptName self.
Proof.
  intros Hid.
  assert (Htwice : forall r, addOne (addOne r s1) s2 = addOne r s1).
  { intros r. unfold addOne at 2 3.
    destruct (findOption (options r) (getId (createOption s1))) as [p|] eqn:Hf.
    - unfold addOne. by rewrite <- Hid, Hf.
    - unfold addOne. simpl. rewrite <- Hid.
      rewrite (findOption_app_new _ (createOption s1) _ Hf (matches_own_id _)).
      done. }
  assert (Hself : forall r, args (addOne r s1) = args r
                            /\ scriptName (addOne r s1) = scriptName r).
  { intros r. unfold addOne. by destruct (findOption _ _). }
  simpl. rewrite !Htwice. split_and!; try done; apply Hself.
Qed.

Lemma addOption_same_id_once_witness :
  options (addOption (One spec_url) (addOption (One spec_url) (create ["prog"])))
  = [createOption spec_url].
Proof.
  apply (addOption_same_id_once (create ["prog"]) spec_url spec_url ["prog"]).
  reflexivity.
Defined.

Lemma addOne_invariant self op :
  ids_resolve (options self) /\ constructed (options self) ->
  ids_resolve (options (addOne self op)) /\ constructed (options (addOne self op)).
Proof.
  intros [Hres Hcon]. unfold addOne.
  destruct (findOption (options self) (getId (createOption op))) eqn:Hf; [done|].
  simpl. split.
  - intros k o Hk. destruct (decide (k < length (options self))) as [Hlt|Hge].
    + rewrite lookup_app_l in Hk by done.
      by apply findOption_app_old, Hres.
    + rewrite lookup_app_r in Hk by lia.
      destruct (k - length (options self)) as [|n] eqn:Hn; simpl in Hk; [|done].
      injection Hk as <-. assert (k = length (options self)) as -> by lia.
      apply findOption_app_new; [done|apply matches_own_id].
  - apply Forall_app. split; [done|]. constructor; [by exists op|constructor].
Qed.

Lemma addOption_invariant self a :
  ids_resolve (options self) /\ constructed (options self) ->
  ids_resolve (options (addOption a self)) /\ constructed (options (addOption a self)).
Proof.
  destruct a as [op|ops]; simpl; [apply addOne_invariant|].
  revert self. induction ops as [|op ops IH]; intros self H; simpl; [done|].
  by apply IH, addOne_invariant.
Qed.

Lemma register_invariant adds self :
  ids_resolve (options self) /\ constructed (options self) ->
  ids_resolve (options (register adds self))
  /\ constructed (options (register adds self)).
Proof.
  revert self. induction adds as [|a adds IH]; intros self H; simpl; [done|].
  by apply IH, addOption_invariant.
Qed.

Lemma str_or_None_cases (a : option string) :
  str_or a None = None \/ exists s, str_or a None = Some s /\ (s =? "") = false.
Proof.
  destruct a as [s|]; simpl; [|by left].
  destruct (s =? "") eqn:Hs; [by left|]. right. by exists s.
Qed.

Lemma str_or_Some_l s b : (s =? "") = false -> str_or (Some s) b = Some s.
Proof. intros H. unfold str_or. by rewrite H. Qed.

Lemma getId_of_normal_slots (i lc sc : option string) :
  normal_slot lc -> normal_slot sc ->
  match str_or (str_or (str_or (str_or (str_or (str_or i lc) sc) None) lc) sc) None with
  | Some s => Some (toCamelCase s)
  | None => str_or (str_or (str_or i lc) sc) None
  end = toCamelCase <$> str_or (str_or (str_or i lc) sc) None.
Proof.
  intros [-> | (l & -> & Hl)] [-> | (c & -> & Hc)];
    destruct i as [x|]; try destruct (x =? "") eqn:Hx;
    repeat (unfold str_or; simpl; rewrite ?Hx, ?Hl, ?Hc); done.
Qed.

(** On an Option that came out of the constructor, [getId()] is the
    camelCase form of the [id] field, and [null] when there is none. *)
Lemma getId_createOption (op : OptionParams.t) :
  getId (createOption op) = toCamelCase <$> id (createOption op).
Proof.
  unfold getId, createOption; cbn [id longCode shortCode].
  apply getId_of_normal_slots; apply str_or_None_cases.
Qed.

(** ** Lookup by id *)

(** C9, as the specification states it, fails.  [findOption] compares its
    argument with the normalized id, so the raw id [my-note] of a
    registered Option that has no code finds nothing.  And a raw id that
    is the Option's own long code finds the first Option with that code:
    with [a-b] as long code of an Option registered before under the id
    [zzz], [findOption("a-b")] returns that one, whose [getId()] is not
    [aB]. *)
Lemma raw_id_not_found :
  (options (host [spec_my_note] ["prog"]) = [createOption spec_my_note]
   /\ id (createOption spec_my_note) = Some "my-note"
   /\ getId (createOption spec_my_note) = Some "myNote"
   /\ findOption (options (host [spec_my_note] ["prog"])) (Some "my-note") = None)
  /\ (options (host [spec_alias; spec_a_b] ["prog"])
        = [createOption spec_alias; createOption spec_a_b]
      /\ id (createOption spec_a_b) = Some "a-b"
      /\ findOption (options (host [spec_alias; spec_a_b] ["prog"])) (Some "a-b")
         = Some (0, createOption spec_alias)
      /\ getId (createOption spec_alias) = Some "zzz"
      /\ toCamelCase "a-b" = "aB").
Proof. split_and!; reflexivity. Qed.

Lemma findOption_some_match (opts : list Option) (ident : option string)
    (k : nat) (o : Option) :
  opts !! k = Some o -> matches ident o = true ->
  exists j o', findOption opts ident = Some (j, o') /\ j <= k.
Proof.
  intros Hk Hm. destruct (findOption opts ident) as [[j o']|] eqn:Hf.
  - exists j, o'. split; [done|].
    apply findOption_Some in Hf as (_ & _ & Hbefore).
    destruct (decide (j <= k)) as [|Hgt]; [done|].
    rewrite (Hbefore k o) in Hm; [done|lia|done].
  - apply findOption_from_None in Hf. rewrite Forall_forall in Hf.
    rewrite (Hf o) in Hm; [done|]. by eapply list_elem_of_lookup_2.
Qed.

(** C9, amended.  In a registry built by [addOption] from an empty one,
    for every registered Option [o] with raw id X: [getId()] is the
    camelCase form of X and [findOption] of that camelCase form returns
    [o].  [findOption] of X itself returns an Option whenever X is the long
    code or the short code of [o] (its id when the spec gave none) or is
    its own camelCase form; the Option returned is [o], whose [getId()] is
    the camelCase form of X, when no Option registered before [o] has X as
    normalized id, long code or short code. *)
Theorem findOption_by_normalized_id (adds : list addArg) (argv : list string)
    (k : nat) (o : Option) (X : string) :
  options (register adds (create argv)) !! k = Some o ->
  id o = Some X ->
  getId o = Some (toCamelCase X)
  /\ findOption (options (register adds (create argv))) (Some (toCamelCase X))
     = Some (k, o)
  /\ (longCode o = Some X \/ shortCode o = Some X \/ toCamelCase X = X ->
      (exists j o',
         findOption (options (register adds (create argv))) (Some X) = Some (j, o')
         /\ j <= k)
      /\ ((forall n o', n < k ->
             options (register adds (create argv)) !! n = Some o' ->
             getId o' <> Some X /\ longCode o' <> Some X /\ shortCode o' <> Some X) ->
          findOption (options (register adds (create argv))) (Some X) = Some (k, o))).
Proof.
  intros Hk HX.
  destruct (register_invariant adds (create argv)) as [Hres Hcon].
  { split; [by intros ? ? ?|constructor]. }
  assert (Hid : getId o = Some (toCamelCase X)).
  { unfold constructed in Hcon. rewrite Forall_forall in Hcon.
    destruct (Hcon o) as [op ->]; [by eapply list_elem_of_lookup_2|].
    by rewrite getId_createOption, HX. }
  split_and!; [done|by rewrite <- Hid; apply Hres|].
  intros Hown.
  assert (Hm : matches (Some X) o = true).
  { unfold matches. rewrite !orb_true_iff, !str_eqb_eq.
    destruct Hown as [H | [H | H]]; [by left; right|by right|].
    left; left. by rewrite Hid, H. }
  split; [by apply (findOption_some_match _ _ k o)|].
  intros Hbefore. apply findOption_first; [done|done|].
  intros n o' Hn Ho'. destruct (Hbefore n o' Hn Ho') as (H1 & H2 & H3).
  unfold matches. rewrite !orb_false_iff. split_and!;
    apply not_true_iff_false; rewrite str_eqb_eq; done.
Qed.

Lemma findOption_by_normalized_id_witness :
  getId (createOption spec_format) = Some "outputBase64Format"
  /\ findOption (options (register [Many [spec_url; spec_format]] (create ["prog"])))
       (Some "outputBase64Format")
     = Some (1, createOption spec_format)
  /\ findOption (options (register [Many [spec_url; spec_format]] (create ["prog"])))
       (Some "output-base64-format")
     = Some (1, createOption spec_format).
Proof.
  destruct (findOption_by_normalized_id [Many [spec_url; spec_format]] ["prog"] 1
              (createOption spec_format) "output-base64-format")
    as (H1 & H2 & H3); [reflexivity|reflexivity|].
  split; [exact H1|]. split; [exact H2|].
  destruct H3 as [_ H4]; [by left|].
  apply H4. intros n o' Hn Ho'.
  assert (n = 0) as -> by lia. vm_compute in Ho'. injection Ho' as <-.
  split_and!; discriminate.
Defined.

(** ** Defaults *)

(** C10.  A spec whose [value.default] is [false], [0] or [""] gives an
    Option whose [value.default] is [null]; [hasDefaultValue()] is then
    falsy and the [normal] rendering is the text without the
    [[default: ...]] part. *)
Theorem falsy_default_is_null (op : OptionParams.t) (vp : ValueParams.t) :
  OptionParams.value op = Some vp ->
  ValueParams.default vp = JBool false \/ ValueParams.default vp = JNum 0
  \/ ValueParams.default vp = JStr "" ->
  Value.default (value (createOption op)) = JNull
  /\ truthy (hasDefaultValue (createOption op)) = false
  /\ OptionType_normal (createOption op)
     = "   "
       +:+ when_str (shortCode (createOption op)) (fun c => "-" +:+ c +:+ ", ")
       +:+ when_str (longCode (createOption op)) (fun c => "--" +:+ c)
       +:+ (if truthy (valueIsRequired (createOption op)) then "[=]" else "")
       +:+ ": "
       +:+ when_str (description (createOption op)) (fun d => d)
       +:+ nl.
Proof.
  intros Hv Hd.
  assert (Hnull : Value.default (value (createOption op)) = JNull).
  { unfold createOption. cbn [value Value.default]. rewrite Hv. unfold value_slot.
    by destruct Hd as [-> | [-> | ->]]. }
  assert (Hfalsy : truthy (hasDefaultValue (createOption op)) = false).
  { unfold hasDefaultValue. by rewrite Hnull. }
  split_and!; [done|done|].
  unfold OptionType_normal. by rewrite Hfalsy.
Qed.

Lemma falsy_default_is_null_witness :
  Value.default (value (createOption
    (OptionParams.mk (Some "debug") None None None
       (Some "prints more verbose output") None None
       (Some (ValueParams.mk JUndefined (JBool false) JUndefined)) JUndefined None)))
  = JNull.
Proof.
  apply (falsy_default_is_null
    (OptionParams.mk (Some "debug") None None None
       (Some "prints more verbose output") None None
       (Some (ValueParams.mk JUndefined (JBool false) JUndefined)) JUndefined None)
    (ValueParams.mk JUndefined (JBool false) JUndefined)).
  - reflexivity.
  - left. reflexivity.
Defined.

(** * Further properties *)

(** ** [repeat] *)

Lemma append_cons (x : ascii) (a b : string) :
  String x a +:+ b = String x (a +:+ b).
Proof. done. Qed.

Lemma append_assoc (a b c : string) : (a +:+ b) +:+ c = a +:+ (b +:+ c).
Proof. induction a as [|x a IH]; [done|]. by rewrite !append_cons, IH. Qed.

Lemma append_empty_r (a : string) : a +:+ "" = a.
Proof. induction a as [|x a IH]; [done|]. by rewrite append_cons, IH. Qed.

Lemma append_length (a b : string) :
  String.length (a +:+ b) = String.length a + String.length b.
Proof. induction a as [|x a IH]; [done|]. rewrite append_cons. simpl. by rewrite IH. Qed.

Lemma copies_add (n m : nat) (s : string) :
  copies (n + m) s = copies n s +:+ copies m s.
Proof.
  induction n as [|n IH]; [done|].
  cbn [Nat.add copies]. by rewrite IH, append_assoc.
Qed.

Lemma copies_double (n : nat) (s : string) : copies n (s +:+ s) = copies (2 * n) s.
Proof.
  induction n as [|n IH]; [done|].
  replace (2 * S n) with (S (S (2 * n))) by lia.
  cbn [copies]. by rewrite IH, append_assoc.
Qed.

Lemma to_int32_small (z : Z) : (- 2 ^ 31 <= z < 2 ^ 31)%Z -> to_int32 z = z.
Proof. intros H. unfold to_int32. rewrite Z.mod_small; lia. Qed.

Lemma shiftr_1_half (z : Z) : Z.shiftr z 1 = (z / 2)%Z.
Proof. by rewrite Z.shiftr_div_pow2. Qed.

Lemma land_1_mod (z : Z) : Z.land z 1 = (z mod 2)%Z.
Proof. change 1%Z with (Z.ones 1). by rewrite Z.land_ones. Qed.

Lemma repeat_loop_S (fuel : nat) (count : Z) (result pattern : string) :
  repeat_loop (S fuel) count result pattern
  = if (count >? 0)%Z then
      repeat_loop fuel (Z.shiftr (to_int32 count) 1)
        (if negb (Z.land (to_int32 count) 1 =? 0)%Z
         then result +:+ pattern else result)
        (pattern +:+ pattern)
    else result.
Proof. done. Qed.

(** The loop adds [count] copies of the pattern to the result. *)
Lemma repeat_loop_copies (fuel : nat) (count : Z) (result pattern : string) :
  (0 <= count < 2 ^ Z.of_nat fuel)%Z -> (count < 2 ^ 31)%Z ->
  repeat_loop fuel count result pattern
  = result +:+ copies (Z.to_nat count) pattern.
Proof.
  revert count result pattern.
  induction fuel as [|fuel IH]; intros count result pattern Hfuel H31.
  - simpl in *. assert (count = 0%Z) as -> by lia. simpl. by rewrite append_empty_r.
  - simpl repeat_loop. destruct (Z.gtb_spec count 0) as [Hpos|Hle].
    + rewrite to_int32_small by lia. rewrite shiftr_1_half, land_1_mod.
      pose proof (Z.div_mod count 2 ltac:(lia)) as Hdm.
      pose proof (Z.mod_pos_bound count 2 ltac:(lia)) as Hm.
      assert (Hhalf : (0 <= count / 2 < 2 ^ Z.of_nat fuel)%Z).
      { rewrite Nat2Z.inj_succ, Z.pow_succ_r in Hfuel by lia. lia. }
      rewrite IH by lia.
      rewrite copies_double.
      destruct (Z.eqb_spec (count mod 2) 0) as [H0|H1]; simpl negb; cbv iota.
      * replace (Z.to_nat count) with (2 * Z.to_nat (count / 2)) by lia. done.
      * replace (Z.to_nat count) with (1 + 2 * Z.to_nat (count / 2)) by lia.
        rewrite copies_add. change (copies 1 pattern) with (pattern +:+ "").
        by rewrite append_empty_r, append_assoc.
    + assert (count = 0%Z) as -> by lia. simpl. by rewrite append_empty_r.
Qed.

(** More rounds than the count has bits change nothing. *)
Lemma repeat_loop_fuel (fuel k : nat) (count : Z) (result pattern : string) :
  (count < 2 ^ Z.of_nat fuel)%Z -> (count < 2 ^ 31)%Z ->
  repeat_loop (fuel + k) count result pattern
  = repeat_loop fuel count result pattern.
Proof.
  revert count result pattern.
  induction fuel as [|fuel IH]; intros count result pattern Hfuel H31.
  - simpl in Hfuel. destruct k; simpl; [done|].
    by destruct (Z.gtb_spec count 0); [lia|].
  - simpl. destruct (Z.gtb_spec count 0) as [Hpos|Hle]; [|done].
    rewrite to_int32_small by lia. rewrite shiftr_1_half.
    pose proof (Z.div_mod count 2 ltac:(lia)) as Hdm.
    pose proof (Z.mod_pos_bound count 2 ltac:(lia)) as Hm.
    rewrite Nat2Z.inj_succ, Z.pow_succ_r in Hfuel by lia.
    apply IH; lia.
Qed.

Lemma to_int32_range (z : Z) : (- 2 ^ 31 <= to_int32 z < 2 ^ 31)%Z.
Proof.
  unfold to_int32. pose proof (Z.mod_pos_bound (z + 2 ^ 31) (2 ^ 32) ltac:(lia)). lia.
Qed.

Lemma String_repeat_copies_aux (s : string) (count : Z) :
  (count < 2 ^ 31)%Z -> String_repeat s count = copies (Z.to_nat count) s.
Proof.
  intros H31. unfold String_repeat. destruct (Z.ltb_spec count 1) as [Hlt|Hge].
  - by replace (Z.to_nat count) with 0 by lia.
  - rewrite repeat_loop_copies; [done| |done]. simpl Z.of_nat. lia.
Qed.

(** X1.  For a count below [2^31], [s.repeat(count)] is [count] copies of
    [s]: none when the count is zero or negative. *)
Theorem String_repeat_copies (s : string) (count : Z) :
  (count < 2 ^ 31)%Z ->
  String_repeat s count = copies (Z.to_nat count) s
  /\ String.length (String_repeat s count) = Z.to_nat count * String.length s.
Proof.
  intros H31. rewrite (String_repeat_copies_aux s count H31). split; [done|].
  induction (Z.to_nat count) as [|n IH]; [done|].
  cbn [copies]. rewrite append_length, IH. simpl. lia.
Qed.

Lemma String_repeat_copies_witness :
  String_repeat "ab" 5 = copies (Z.to_nat 5) "ab"
  /\ String.length (String_repeat "ab" 5) = Z.to_nat 5 * String.length "ab".
Proof. apply (String_repeat_copies "ab" 5). reflexivity. Defined.

(** X2.  The 32 rounds given to the loop of [repeat] are enough for every
    integer count: the loop has stopped by then, so more rounds give the
    same string. *)
Theorem String_repeat_rounds (s : string) (count : Z) (k : nat) :
  repeat_loop (32 + k) count "" s = repeat_loop 32 count "" s.
Proof.
  change (repeat_loop (S (31 + k)) count "" s = repeat_loop (S 31) count "" s).
  rewrite (repeat_loop_S (31 + k)), (repeat_loop_S 31). destruct (Z.gtb_spec count 0) as [Hpos|Hle]; [|done].
  pose proof (to_int32_range count) as Hr.
  assert (Hhalf : (Z.shiftr (to_int32 count) 1 < 2 ^ 30)%Z).
  { rewrite shiftr_1_half.
    pose proof (Z.div_mod (to_int32 count) 2 ltac:(lia)).
    pose proof (Z.mod_pos_bound (to_int32 count) 2 ltac:(lia)). lia. }
  apply repeat_loop_fuel; simpl Z.of_nat; lia.
Qed.

(** ** [toCamelCase] *)

(** Induction that follows the two-character steps of [toCamelCase]. *)
Lemma string_pair_ind (P : string -> Prop) :
  P "" -> (forall c, P (String c "")) ->
  (forall c d s, P s -> P (String d s) -> P (String c (String d s))) ->
  forall s, P s.
Proof.
  intros Hnil Hone Hstep s.
  assert (P s /\ forall c, P (String c s)) as [H _]; [|done].
  induction s as [|d s [IH1 IH2]]; [by split|].
  split; [apply IH2|]. intros c. by apply Hstep.
Qed.

Lemma upper_char_of_lower (d : ascii) :
  is_lower d = true ->
  is_lower (upper_char d) = false /\ Ascii.eqb (upper_char d) "-" = false.
Proof.
  intros Hd. unfold upper_char. rewrite Hd. unfold is_lower in *.
  apply andb_true_iff in Hd as [H1 H2]. apply Nat.leb_le in H1, H2.
  split.
  - rewrite nat_ascii_embedding by lia.
    apply andb_false_iff. left. apply Nat.leb_gt. lia.
  - apply Ascii.eqb_neq. intros Heq.
    apply (f_equal nat_of_ascii) in Heq.
    rewrite nat_ascii_embedding in Heq by lia.
    change (nat_of_ascii "-") with 45 in Heq. lia.
Qed.

Lemma has_hyphen_lower_pair (c d : ascii) (s : string) :
  has_hyphen_lower (String c (String d s))
  = (Ascii.eqb c "-" && is_lower d) || has_hyphen_lower (String d s).
Proof. done. Qed.

Lemma toCamelCase_pair (c d : ascii) (s : string) :
  toCamelCase (String c (String d s))
  = if Ascii.eqb c "-" && is_lower d
    then String (upper_char d) (toCamelCase s)
    else String c (toCamelCase (String d s)).
Proof. done. Qed.

(** The first character of a camel-cased string is that of the string,
    or is no lower-case letter. *)
Lemma toCamelCase_head (d : ascii) (s : string) :
  exists e r, toCamelCase (String d s) = String e r
              /\ (is_lower e = true -> e = d).
Proof.
  destruct s as [|x s]; [by exists d, ""|].
  rewrite toCamelCase_pair. destruct (Ascii.eqb d "-" && is_lower x) eqn:Hm.
  - apply andb_true_iff in Hm as [_ Hx].
    destruct (upper_char_of_lower x Hx) as [Hl _].
    eexists _, _. split; [done|]. congruence.
  - by eexists _, _.
Qed.

Lemma toCamelCase_no_pattern (s : string) : has_hyphen_lower (toCamelCase s) = false.
Proof.
  induction s as [|c|c d s IH1 IH2] using string_pair_ind; [done|done|].
  rewrite toCamelCase_pair. destruct (Ascii.eqb c "-" && is_lower d) eqn:Hm.
  - apply andb_true_iff in Hm as [_ Hd].
    destruct (upper_char_of_lower d Hd) as [_ Hne].
    destruct (toCamelCase s) as [|e r]; [done|].
    rewrite has_hyphen_lower_pair, Hne. exact IH1.
  - destruct (toCamelCase_head d s) as (e & r & Heq & Hhead).
    rewrite Heq in *. rewrite has_hyphen_lower_pair, IH2, orb_false_r.
    destruct (Ascii.eqb c "-") eqn:Hc; [|done]. simpl in *.
    destruct (is_lower e) eqn:He; [|done].
    rewrite (Hhead eq_refl) in He. congruence.
Qed.

Lemma toCamelCase_fixed (s : string) :
  has_hyphen_lower s = false -> toCamelCase s = s.
Proof.
  induction s as [|c|c d s IH1 IH2] using string_pair_ind; [done|done|].
  rewrite has_hyphen_lower_pair, toCamelCase_pair.
  intros H. apply orb_false_iff in H as [Hm Hrest].
  by rewrite Hm, (IH2 Hrest).
Qed.

(** X3.  [toCamelCase] is idempotent: a normalized id is its own
    normalization. *)
Theorem toCamelCase_idempotent (s : string) :
  toCamelCase (toCamelCase s) = toCamelCase s.
Proof. apply toCamelCase_fixed, toCamelCase_no_pattern. Qed.

(** X4.  [toCamelCase] leaves a string as it is exactly when the string
    has no hyphen followed by a lower-case letter. *)
Theorem toCamelCase_fixed_iff (s : string) :
  toCamelCase s = s <-> has_hyphen_lower s = false.
Proof.
  split; [|apply toCamelCase_fixed].
  intros H. rewrite <- H. apply toCamelCase_no_pattern.
Qed.

(** ** The registry *)

Lemma matches_iff (ident : option string) (o : Option) :
  matches ident o = true
  <-> getId o = ident \/ longCode o = ident \/ shortCode o = ident.
Proof. unfold matches. rewrite !orb_true_iff, !str_eqb_eq. tauto. Qed.

Lemma matches_false_iff (ident : option string) (o : Option) :
  matches ident o = false
  <-> getId o <> ident /\ longCode o <> ident /\ shortCode o <> ident.
Proof.
  rewrite <- not_true_iff_false, matches_iff. tauto.
Qed.

(** X5.  [findOption] returns the first Option, in registration order,
    whose normalized id, long code or short code is the argument: it
    returns the Option at index [k] exactly when that one matches and none
    before it does. *)
Theorem findOption_first_match (opts : list Option) (ident : option string)
    (k : nat) (o : Option) :
  findOption opts ident = Some (k, o)
  <-> opts !! k = Some o
      /\ (getId o = ident \/ longCode o = ident \/ shortCode o = ident)
      /\ (forall n o', n < k -> opts !! n = Some o' ->
          getId o' <> ident /\ longCode o' <> ident /\ shortCode o' <> ident).
Proof.
  split.
  - intros H. apply findOption_Some in H as (Hk & Hm & Hbefore).
    split_and!; [done|by apply matches_iff|].
    intros n o' Hn Ho'. apply matches_false_iff. by apply (Hbefore n).
  - intros (Hk & Hm & Hbefore). apply findOption_first; [done|by apply matches_iff|].
    intros n o' Hn Ho'. apply matches_false_iff. by apply (Hbefore n).
Qed.

(** X6.  [findOption] returns [null] exactly when no registered Option has
    the argument as normalized id, long code or short code. *)
Theorem findOption_null_iff (opts : list Option) (ident : option string) :
  findOption opts ident = None
  <-> forall o, o ∈ opts ->
        getId o <> ident /\ longCode o <> ident /\ shortCode o <> ident.
Proof.
  unfold findOption. rewrite findOption_from_None, Forall_forall.
  split; intros H o Ho; apply matches_false_iff, H, Ho.
Qed.

Lemma addOne_extends (self : OptionParser) (op : OptionParams.t) :
  exists new,
    options (addOne self op) = options self ++ new
    /\ (new = [] \/ new = [createOption op])
    /\ args (addOne self op) = args self
    /\ scriptName (addOne self op) = scriptName self.
Proof.
  unfold addOne. destruct (findOption _ _).
  - exists []. by rewrite app_nil_r; auto.
  - exists [createOption op]. simpl. auto.
Qed.

Lemma fold_addOne_extends (ops : list OptionParams.t) (self : OptionParser) :
  exists new,
    options (fold_left addOne ops self) = options self ++ new
    /\ new `sublist_of` (createOption <$> ops)
    /\ args (fold_left addOne ops self) = args self
    /\ scriptName (fold_left addOne ops self) = scriptName self.
Proof.
  revert self. induction ops as [|op ops IH]; intros self; simpl.
  - exists []. by rewrite app_nil_r.
  - destruct (addOne_extends self op) as (n1 & H1 & Hn1 & Ha1 & Hs1).
    destruct (IH (addOne self op)) as (n2 & H2 & Hn2 & Ha2 & Hs2).
    exists (n1 ++ n2). rewrite H2, H1, app_assoc, Ha2, Ha1, Hs2, Hs1.
    split_and!; try done.
    destruct Hn1 as [-> | ->]; simpl.
    + by apply sublist_cons.
    + by apply sublist_skip.
Qed.

(** X7.  [addOption] only appends: the Options registered before stay in
    place and in order, and what is added is a sub-sequence of the Options
    built from the specs, in the order of the specs.  The token list and
    the script name are untouched. *)
Theorem addOption_appends (a : addArg) (self : OptionParser) :
  exists new,
    options (addOption a self) = options self ++ new
    /\ new `sublist_of` (createOption <$> specs_of a)
    /\ args (addOption a self) = args self
    /\ scriptName (addOption a self) = scriptName self.
Proof.
  destruct a as [op|ops]; [|apply fold_addOne_extends].
  apply (fold_addOne_extends [op]).
Qed.

(** X8.  In a registry built by [addOption] from an empty one, no two
    Options have the same normalized id. *)
Theorem registered_ids_distinct (adds : list addArg) (argv : list string) :
  NoDup (getId <$> options (register adds (create argv))).
Proof.
  destruct (register_invariant adds (create argv)) as [Hres _].
  { split; [by intros ? ? ?|constructor]. }
  apply NoDup_alt. intros i j x Hi Hj.
  rewrite list_lookup_fmap in Hi, Hj.
  destruct (options (register adds (create argv)) !! i) as [oi|] eqn:Ei; [|done].
  destruct (options (register adds (create argv)) !! j) as [oj|] eqn:Ej; [|done].
  simpl in Hi, Hj. pose proof (Hres i oi Ei) as Fi. pose proof (Hres j oj Ej) as Fj.
  assert (getId oi = getId oj) as Heq by congruence.
  rewrite Heq in Fi. congruence.
Qed.

(** X9.  After [addOption(spec)] the normalized id of the spec always
    resolves: to the Option that already answered to it, or else to the
    new Option, which is the last of the array. *)
Theorem addOption_then_found (op : OptionParams.t) (self : OptionParser) :
  findOption (options (addOption (One op) self)) (getId (createOption op))
  = match findOption (options self) (getId (createOption op)) with
    | Some found => Some found
    | None => Some (length (options self), createOption op)
    end.
Proof.
  simpl. unfold addOne.
  destruct (findOption (options self) (getId (createOption op))) eqn:Hf; [done|].
  simpl. apply findOption_app_new; [done|apply matches_own_id].
Qed.

(** ** [parse] as a whole *)

Lemma erase_eq_set_current (o o' : Option) :
  erase o' = erase o -> o' = set_current (getValue o') o.
Proof.
  destruct o as [l s d t [c df r] rq i], o' as [l' s' d' t' [c' df' r'] rq' i'].
  unfold erase, set_current, getValue. simpl. intros [= -> -> -> -> -> -> -> ->].
  done.
Qed.

Lemma parse_schema (self : OptionParser) :
  same_schema (options_of (parse self)) (options self).
Proof.
  unfold parse.
  pose proof (parse_loop_schema (args self) (length (args self))
                (mkState (options self) [] None 1)) as Hs.
  by destruct (parse_loop _ _ _).
Qed.

(** X10.  [parse] writes [value.current] and nothing else, whether it
    returns or throws: afterwards the array has the same length and each
    Option is the one that was there, with some [value.current]. *)
Theorem parse_only_writes_current (self : OptionParser) :
  length (options_of (parse self)) = length (options self)
  /\ forall k o, options self !! k = Some o ->
       exists v, options_of (parse self) !! k = Some (set_current v o).
Proof.
  pose proof (parse_schema self) as Hs. split.
  - unfold same_schema in Hs. apply (f_equal length) in Hs.
    by rewrite !length_fmap in Hs.
  - intros k o Hk.
    assert (Hsym : same_schema (options self) (options_of (parse self))) by done.
    destruct (same_schema_lookup _ _ k o Hsym Hk) as (o' & Hk' & He).
    exists (getValue o'). rewrite Hk'. f_equal. by apply erase_eq_set_current.
Qed.

Lemma parse_only_writes_current_witness :
  exists v, options_of (parse (host [spec_url; spec_html] ["prog"; "--url"; "x"])) !! 0
            = Some (set_current v (createOption spec_url)).
Proof.
  apply (parse_only_writes_current (host [spec_url; spec_html] ["prog"; "--url"; "x"])).
  reflexivity.
Defined.

Lemma prefix_cons (a b : ascii) (s1 s2 : string) :
  String.prefix (String a s1) (String b s2)
  = if ascii_dec a b then String.prefix s1 s2 else false.
Proof. done. Qed.

Lemma prefix_empty (s : string) : String.prefix "" s = true.
Proof. by destruct s. Qed.

Lemma startsWith_dash_of_dashes (t : string) :
  startsWith t "--" = true -> startsWith t "-" = true.
Proof.
  unfold startsWith. destruct t as [|a t]; [done|].
  rewrite !prefix_cons. destruct (ascii_dec "-" a); [|done].
  intros _. apply prefix_empty.
Qed.

Lemma argCode_of_bare (t : string) (prev : option string) :
  startsWith t "-" = false -> argCode_of t prev = prev.
Proof.
  intros H. unfold argCode_of. rewrite H.
  destruct (startsWith t "--") eqn:H2; [|done].
  apply startsWith_dash_of_dashes in H2. congruence.
Qed.

(** X11.  [parse] throws exactly when the first token after the program
    name starts with no hyphen; it then throws at once: the callback has
    not been called and no Option has been written. *)
Theorem parse_throws_iff (self : OptionParser) :
  ((exists e st, parse self = Thrown e st)
   <-> exists t, args self !! 1 = Some t /\ startsWith t "-" = false)
  /\ forall e st, parse self = Thrown e st -> st = mkState (options self) [] None 1.
Proof.
  assert (Hthrow : forall t, args self !! 1 = Some t -> startsWith t "-" = false ->
            parse self = Thrown (TypeError "undefined has no property indexOf")
                           (mkState (options self) [] None 1)).
  { intros t Ht Hbare. unfold parse.
    destruct (length (args self)) as [|fuel] eqn:Hlen.
    { apply lookup_lt_Some in Ht. lia. }
    simpl. rewrite Ht. unfold parse_arg. simpl.
    by rewrite (argCode_of_bare t None Hbare). }
  assert (Hcases : (exists t, args self !! 1 = Some t /\ startsWith t "-" = false)
            \/ (args self !! 1 = None
                \/ exists t, args self !! 1 = Some t /\ startsWith t "-" = true)).
  { destruct (args self !! 1) as [t|]; [|by right; left].
    destruct (startsWith t "-") eqn:Ht; [right; right|left]; by exists t. }
  split; [split|].
  - intros (e & st & Hp). destruct Hcases as [H | H]; [done|].
    apply parse_returns_after_switch in H as [st' H]. congruence.
  - intros (t & Ht & Hbare). eexists _, _. exact (Hthrow t Ht Hbare).
  - intros e st Hp. destruct Hcases as [(t & Ht & Hbare) | H].
    + rewrite (Hthrow t Ht Hbare) in Hp. congruence.
    + apply parse_returns_after_switch in H as [st' H]. congruence.
Qed.

Lemma parse_arg_report_calls argv arg st :
  Forall report_call (st_calls st) ->
  Forall report_call (st_calls (state_of (parse_arg argv arg st))).
Proof.
  intros H. unfold parse_arg.
  destruct (argCode_of arg (st_argCode st)) as [c0|]; [|done].
  simpl. destruct (findOption (st_options st) (Some (strip_inline c0)))
    as [[k opt]|]; simpl.
  - destruct (OptionType_eqb (type opt) help);
      destruct (indexOf arg "=" >=? 1)%Z; simpl;
      try (destruct (no_value_follows (argv !! S (st_i st))); simpl);
      try destruct (truthy (valueIsRequired opt) && negb (truthy (getValue opt)));
      simpl; rewrite ?Forall_app; repeat split; try done; by repeat constructor.
  - rewrite Forall_app. split; [done|]. by repeat constructor.
Qed.

Lemma parse_loop_report_calls argv fuel st :
  Forall report_call (st_calls st) ->
  Forall report_call (st_calls (state_of (parse_loop argv fuel st))).
Proof.
  revert st. induction fuel as [|fuel IH]; intros st H; simpl; [done|].
  destruct (argv !! st_i st) as [arg|]; [|done].
  pose proof (parse_arg_report_calls argv arg st H) as Hs.
  destruct (parse_arg argv arg st) as [st'|e st']; simpl in *; [|done].
  by apply IH.
Qed.

Lemma check_required_report_calls opts o : Forall report_call (check_required opts o).
Proof.
  unfold check_required. destruct (required o) as [| |b|n|s];
    repeat case_match; by repeat constructor.
Qed.

Lemma required_pass_report_calls opts : Forall report_call (required_pass opts).
Proof.
  unfold required_pass. generalize opts at 1. intros l.
  induction opts as [|o opts IH]; simpl; [constructor|].
  apply Forall_app. split; [apply check_required_report_calls|done].
Qed.

(** X12.  When [parse] returns, the callback has been called with
    [(null, options)] exactly once, as the last call, even after errors;
    every call before it is a help request or an error object. *)
Theorem parse_done_once (self : OptionParser) (st : pstate) :
  parse self = Returned st ->
  exists reports,
    st_calls st = reports ++ [CbDone (st_options st)]
    /\ Forall (fun c => is_done c = false) reports.
Proof.
  intros H. apply parse_Returned in H as (st0 & Hloop & _ & Hcalls & _).
  exists (st_calls st0 ++ required_pass (st_options st)).
  split; [by rewrite Hcalls, app_assoc|].
  pose proof (parse_loop_report_calls (args self) (length (args self))
                (mkState (options self) [] None 1) (Forall_nil_2 _)) as Hl.
  rewrite Hloop in Hl. simpl in Hl.
  pose proof (required_pass_report_calls (st_options st)) as Hr.
  apply Forall_app. split; eapply Forall_impl; eauto; by intros [].
Qed.

Lemma parse_done_once_witness :
  exists reports,
    st_calls (state_of (parse (host [spec_url; spec_html] ["prog"; "--bogus"])))
    = reports
      ++ [CbDone (st_options
            (state_of (parse (host [spec_url; spec_html] ["prog"; "--bogus"]))))]
    /\ Forall (fun c => is_done c = false) reports.
Proof.
  apply (parse_done_once (host [spec_url; spec_html] ["prog"; "--bogus"])).
  reflexivity.
Defined.

(** X13.  Every error object [parse] passes to the callback has the code
    [-1]: [generateError] is never given a code. *)
Theorem parse_error_codes (self : OptionParser) (e : error) :
  CbError e ∈ calls_of (parse self) -> code e = (-1)%Z.
Proof.
  unfold parse.
  pose proof (parse_loop_report_calls (args self) (length (args self))
                (mkState (options self) [] None 1) (Forall_nil_2 _)) as Hl.
  destruct (parse_loop _ _ _) as [st0|x st0]; simpl in *.
  - rewrite !elem_of_app. intros [Hin | [Hin | Hin]].
    + rewrite Forall_forall in Hl. apply (Hl _ Hin).
    + pose proof (required_pass_report_calls (st_options st0)) as Hr.
      rewrite Forall_forall in Hr. apply (Hr _ Hin).
    + apply list_elem_of_singleton in Hin. done.
  - intros Hin. rewrite Forall_forall in Hl. apply (Hl _ Hin).
Qed.

Lemma parse_error_codes_witness :
  code {| msg := "bogus not found in options"; code := -1 |} = (-1)%Z.
Proof.
  apply (parse_error_codes (host [spec_url; spec_html] ["prog"; "--bogus"])).
  vm_compute. apply list_elem_of_here.
Defined.

(** X14.  With no token after the program name (or no program name
    either), [parse] goes straight to the pass over the required switches:
    it returns, the options are untouched, and the calls are those of the
    pass followed by the final one. *)
Theorem parse_no_tokens (self : OptionParser) :
  length (args self) <= 1 ->
  parse self
  = Returned (mkState (options self)
                (required_pass (options self) ++ [CbDone (options self)]) None 1).
Proof.
  intros Hlen. unfold parse.
  assert (args self !! 1 = None) as Hnone by (apply lookup_ge_None; lia).
  destruct (length (args self)); simpl; [done|]. by rewrite Hnone.
Qed.

Lemma parse_no_tokens_witness :
  parse (host [spec_url; spec_html] [])
  = Returned (mkState (options (host [spec_url; spec_html] []))
                (required_pass (options (host [spec_url; spec_html] []))
                 ++ [CbDone (options (host [spec_url; spec_html] []))]) None 1).
Proof. apply (parse_no_tokens (host [spec_url; spec_html] [])). simpl. lia. Defined.

(** ** More on the strings of a token *)

Lemma index_char_cons (c d : ascii) (s : string) :
  String.index 0 (String c "") (String d s)
  = if ascii_dec c d then Some 0
    else match String.index 0 (String c "") s with
         | Some n => Some (S n)
         | None => None
         end.
Proof.
  change (String.index 0 (String c "") (String d s))
    with (if String.prefix (String c "") (String d s) then Some 0
          else match String.index 0 (String c "") s with
               | Some n => Some (S n)
               | None => None
               end).
  rewrite prefix_cons, prefix_empty. by destruct (ascii_dec c d).
Qed.

Lemma index_char_absent (c : ascii) (s : string) :
  has_char c s = false -> String.index 0 (String c "") s = None.
Proof.
  induction s as [|d s IH]; [done|].
  simpl has_char. intros H. apply orb_false_iff in H as [Hd Hs].
  rewrite index_char_cons, (IH Hs).
  destruct (ascii_dec c d) as [->|]; [|done]. by rewrite Ascii.eqb_refl in Hd.
Qed.

Lemma index_char_first (c : ascii) (a b : string) :
  has_char c a = false ->
  String.index 0 (String c "") (a +:+ String c b) = Some (String.length a).
Proof.
  induction a as [|d a IH].
  - intros _. change ("" +:+ String c b) with (String c b).
    rewrite index_char_cons. by destruct (ascii_dec c c).
  - simpl has_char. intros H. apply orb_false_iff in H as [Hd Ha].
    rewrite append_cons, index_char_cons, (IH Ha).
    destruct (ascii_dec c d) as [->|]; [|done]. by rewrite Ascii.eqb_refl in Hd.
Qed.

Lemma indexOf_absent (s : string) : has_char "=" s = false -> indexOf s "=" = (-1)%Z.
Proof. intros H. unfold indexOf. by rewrite (index_char_absent _ _ H). Qed.

Lemma indexOf_first (a b : string) :
  has_char "=" a = false ->
  indexOf (a +:+ String "=" b) "=" = Z.of_nat (String.length a).
Proof. intros H. unfold indexOf. by rewrite (index_char_first _ _ _ H). Qed.

Lemma slice_to_append (a b : string) : slice_to (String.length a) (a +:+ b) = a.
Proof.
  induction a as [|d a IH]; [by destruct b|].
  rewrite append_cons. simpl. by rewrite IH.
Qed.

Lemma toLowerCase_append (a b : string) :
  toLowerCase (a +:+ b) = toLowerCase a +:+ toLowerCase b.
Proof.
  induction a as [|d a IH]; [done|].
  rewrite append_cons. simpl toLowerCase. by rewrite IH, append_cons.
Qed.

Lemma toLowerCase_length (a : string) :
  String.length (toLowerCase a) = String.length a.
Proof. induction a as [|d a IH]; simpl; [done|]. by rewrite IH. Qed.

Lemma lower_char_equals_sign (d : ascii) :
  Ascii.eqb (lower_char d) "=" = Ascii.eqb d "=".
Proof.
  unfold lower_char. destruct (is_upper d || is_upper_latin1 d) eqn:Hu; [|done].
  apply capital_spec in Hu.
  transitivity false; [|symmetry]; apply Ascii.eqb_neq; intros Heq;
    apply (f_equal nat_of_ascii) in Heq;
    rewrite ?nat_ascii_embedding in Heq by lia;
    change (nat_of_ascii "=") with 61 in Heq; lia.
Qed.

Lemma has_equals_toLowerCase (a : string) :
  has_char "=" (toLowerCase a) = has_char "=" a.
Proof.
  induction a as [|d a IH]; simpl; [done|].
  by rewrite lower_char_equals_sign, IH.
Qed.

(** The code of a long switch with an inline value. *)
Lemma strip_inline_code (code v : string) :
  code <> "" -> has_char "=" code = false ->
  strip_inline (toLowerCase (code +:+ "=" +:+ v)) = toLowerCase code.
Proof.
  intros Hne Hno. unfold strip_inline.
  change (code +:+ "=" +:+ v) with (code +:+ String "=" v).
  rewrite toLowerCase_append.
  change (toLowerCase (String "=" v)) with (String "=" (toLowerCase v)).
  rewrite indexOf_first by (by rewrite has_equals_toLowerCase).
  rewrite toLowerCase_length.
  destruct code as [|d code]; [done|].
  destruct (Z.geb_spec (Z.of_nat (String.length (String d code))) 1) as [_|Hlt].
  - rewrite Nat2Z.id. rewrite <- (toLowerCase_length (String d code)).
    apply slice_to_append.
  - simpl String.length in Hlt. lia.
Qed.

(** ** The loop body on a resolved token *)

Lemma parse_arg_resolved argv arg st c0 k opt :
  argCode_of arg (st_argCode st) = Some c0 ->
  findOption (st_options st) (Some (strip_inline c0)) = Some (k, opt) ->
  parse_arg argv arg st
  = let st1 := after_help opt (set_argCode (strip_inline c0) st) in
    if (indexOf arg "=" >=? 1)%Z then
      Returned (assign k opt (inline_value arg) st1)
    else if no_value_follows (argv !! S (st_i st)) then
      Returned (assign k opt (JBool true)
        (if truthy (valueIsRequired opt) && negb (truthy (getValue opt))
         then log (CbError (generateError
                     (strip_inline c0 +:+ " requires a value") None)) st1
         else st1))
    else
      Returned (assign k opt
                  (match argv !! S (st_i st) with
                   | Some n => JStr n
                   | None => JUndefined
                   end)
                  (set_i (S (st_i st)) st1)).
Proof.
  intros Hc Hf. unfold parse_arg, after_help. rewrite Hc.
  cbn [st_options set_argCode]. rewrite Hf.
  by destruct (OptionType_eqb (type opt) help).
Qed.

Lemma after_help_fields opt st :
  st_options (after_help opt st) = st_options st
  /\ st_calls (after_help opt st) = st_calls st ++ help_calls opt
  /\ st_argCode (after_help opt st) = st_argCode st
  /\ st_i (after_help opt st) = st_i st.
Proof.
  unfold after_help, help_calls.
  destruct (OptionType_eqb (type opt) help); simpl; by rewrite ?app_nil_r.
Qed.

(** X16.  A resolved switch without inline value, followed by a non-empty
    token that starts with no hyphen, takes that token as its value:
    [value.current] is the token, the token is skipped ([i] moves one
    further), and no error is reported, whether or not the Option
    requires a value. *)
Theorem switch_takes_next_token (argv : list string) (arg : string) (st : pstate)
    (c0 : string) (k : nat) (opt : Option) (n : string) :
  argCode_of arg (st_argCode st) = Some c0 ->
  findOption (st_options st) (Some (strip_inline c0)) = Some (k, opt) ->
  (indexOf arg "=" < 1)%Z ->
  argv !! S (st_i st) = Some n -> n <> "" -> startsWith n "-" = false ->
  exists st',
    parse_arg argv arg st = Returned st'
    /\ st_options st' = <[k := set_current (JStr n) opt]> (st_options st)
    /\ getValue <$> st_options st' !! k = Some (JStr n)
    /\ st_i st' = S (st_i st)
    /\ st_calls st' = st_calls st ++ help_calls opt.
Proof.
  intros Hc Hf Hinline Hn Hne Hdash.
  rewrite (parse_arg_resolved _ _ _ _ _ _ Hc Hf). cbv zeta.
  destruct (Z.geb_spec (indexOf arg "=") 1) as [|_]; [lia|].
  rewrite Hn. simpl no_value_follows. rewrite Hdash.
  destruct (String.eqb_spec n ""); [done|]. simpl.
  destruct (after_help_fields opt (set_argCode (strip_inline c0) st))
    as (Ho & Hcalls & _ & _).
  eexists. split; [reflexivity|]. simpl. rewrite Ho, Hcalls. simpl.
  split_and!; try done.
  rewrite list_lookup_insert_eq; [done|].
  apply findOption_Some in Hf as (Hk & _). by eapply lookup_lt_Some.
Qed.

Lemma switch_takes_next_token_witness :
  exists st',
    parse_arg ["prog"; "--url"; "http://x"] "--url"
      (mkState [createOption spec_url] [] None 1) = Returned st'
    /\ st_options st' = <[0 := set_current (JStr "http://x") (createOption spec_url)]>
                          [createOption spec_url]
    /\ getValue <$> st_options st' !! 0 = Some (JStr "http://x")
    /\ st_i st' = 2
    /\ st_calls st' = [] ++ help_calls (createOption spec_url).
Proof.
  apply (switch_takes_next_token ["prog"; "--url"; "http://x"] "--url"
           (mkState [createOption spec_url] [] None 1) "url" 0
           (createOption spec_url) "http://x");
    solve [reflexivity | discriminate | vm_compute; reflexivity].
Defined.

(** X17.  A long switch [--code=value] whose code has no [=] resolves by
    the code in lower case; the Option's [value.current] becomes the part
    of [value] before its first [=] (all of [value] when it has none), in
    the case it was typed in; the next token is left for the next round
    and no error is reported. *)
Theorem switch_with_inline_value (argv : list string) (st : pstate)
    (code v : string) (k : nat) (opt : Option) :
  code <> "" -> has_char "=" code = false ->
  findOption (st_options st) (Some (toLowerCase code)) = Some (k, opt) ->
  exists st',
    parse_arg argv ("--" +:+ code +:+ "=" +:+ v) st = Returned st'
    /\ st_options st'
       = <[k := set_current (JStr (hd "" (split "=" v))) opt]> (st_options st)
    /\ (has_char "=" v = false ->
        getValue <$> st_options st' !! k = Some (JStr v))
    /\ st_i st' = st_i st
    /\ st_argCode st' = Some (toLowerCase code)
    /\ st_calls st' = st_calls st ++ help_calls opt.
Proof.
  intros Hne Hno Hf.
  assert (Hc : argCode_of ("--" +:+ code +:+ "=" +:+ v) (st_argCode st)
               = Some (toLowerCase (code +:+ "=" +:+ v)))
    by apply argCode_of_long.
  assert (Hs := strip_inline_code code v Hne Hno).
  rewrite <- Hs in Hf.
  rewrite (parse_arg_resolved _ _ _ _ _ _ Hc Hf). cbv zeta.
  assert (Hdashes : has_char "=" ("--" +:+ code) = false) by done.
  assert (Harg : "--" +:+ code +:+ "=" +:+ v = ("--" +:+ code) +:+ String "=" v)
    by done.
  assert (Hidx : (indexOf ("--" +:+ code +:+ "=" +:+ v) "=" >=? 1)%Z = true).
  { rewrite Harg, (indexOf_first _ _ Hdashes).
    apply Z.geb_le. simpl String.length. lia. }
  assert (Hval : inline_value ("--" +:+ code +:+ "=" +:+ v)
                 = JStr (hd "" (split "=" v))).
  { rewrite Harg. apply (inline_value_first_segment _ _ Hdashes). }
  rewrite Hidx, Hval.
  destruct (after_help_fields opt (set_argCode (strip_inline
              (toLowerCase (code +:+ "=" +:+ v))) st)) as (Ho & Hcalls & Hac & Hi).
  eexists. split; [reflexivity|]. simpl. rewrite Ho, Hcalls, Hac, Hi. simpl.
  split_and!; try done; [|by rewrite Hs].
  intros Hv. rewrite (split_no_sep _ _ Hv). simpl.
  rewrite list_lookup_insert_eq; [done|].
  apply findOption_Some in Hf as (Hk & _). by eapply lookup_lt_Some.
Qed.

Lemma switch_with_inline_value_witness :
  exists st',
    parse_arg ["prog"; "--Url=http://X"] ("--" +:+ "Url" +:+ "=" +:+ "http://X")
      (mkState [createOption spec_url] [] None 1) = Returned st'
    /\ st_options st'
       = <[0 := set_current (JStr (hd "" (split "=" "http://X")))
                  (createOption spec_url)]> [createOption spec_url]
    /\ (has_char "=" "http://X" = false ->
        getValue <$> st_options st' !! 0 = Some (JStr "http://X"))
    /\ st_i st' = 1
    /\ st_argCode st' = Some (toLowerCase "Url")
    /\ st_calls st' = [] ++ help_calls (createOption spec_url).
Proof.
  apply (switch_with_inline_value ["prog"; "--Url=http://X"]
           (mkState [createOption spec_url] [] None 1) "Url" "http://X" 0
           (createOption spec_url));
    solve [reflexivity | discriminate].
Defined.

(** X18.  A token that starts with no hyphen and holds no [=], met after
    a switch, is not looked up: the loop body runs on the code of the
    switch before it, as if that switch had been typed again in short
    form. *)
Theorem bare_token_replays_switch (argv : list string) (t c : string) (st : pstate) :
  startsWith t "-" = false -> (indexOf t "=" < 1)%Z ->
  st_argCode st = Some c -> startsWith c "-" = false -> has_char "=" c = false ->
  parse_arg argv t st = parse_arg argv ("-" +:+ c) st.
Proof.
  intros Ht Hidx Hc Hcd Hce.
  assert (H1 : argCode_of t (st_argCode st) = Some c)
    by (by rewrite (argCode_of_bare t _ Ht)).
  assert (H2 : argCode_of ("-" +:+ c) (st_argCode st) = Some c).
  { unfold argCode_of, startsWith.
    change ("-" +:+ c) with (String "-" c).
    rewrite !prefix_cons. destruct (ascii_dec "-" "-"); [|done].
    unfold startsWith in Hcd. rewrite Hcd, prefix_empty. done. }
  assert (H3 : (indexOf ("-" +:+ c) "=" >=? 1)%Z = false).
  { rewrite indexOf_absent; [done|]. by change ("-" +:+ c) with (String "-" c). }
  assert (H4 : (indexOf t "=" >=? 1)%Z = false).
  { destruct (Z.geb_spec (indexOf t "=") 1); [lia|done]. }
  unfold parse_arg. by rewrite H1, H2, H3, H4.
Qed.

Lemma bare_token_replays_switch_witness :
  parse_arg ["prog"; "--url=x"; "foo"] "foo"
    (mkState [createOption spec_url] [] (Some "url") 2)
  = parse_arg ["prog"; "--url=x"; "foo"] ("-" +:+ "url")
      (mkState [createOption spec_url] [] (Some "url") 2).
Proof.
  apply (bare_token_replays_switch ["prog"; "--url=x"; "foo"] "foo" "url"
           (mkState [createOption spec_url] [] (Some "url") 2));
    solve [reflexivity | vm_compute; reflexivity].
Defined.

(** ** The pass over the required switches, after the tokens *)

Lemma required_pass_elem (opts : list Option) (o : Option) (c : cb_call) :
  o ∈ opts -> c ∈ check_required opts o -> c ∈ required_pass opts.
Proof.
  intros Ho Hc. unfold required_pass.
  apply list_elem_of_In, in_flat_map. exists o.
  split; by apply list_elem_of_In.
Qed.

Lemma same_schema_findOption_None l l' ident :
  same_schema l l' -> findOption l ident = None -> findOption l' ident = None.
Proof.
  intros H Hf. pose proof (same_schema_findOption_from l l' 0 ident H) as Hs.
  unfold findOption in *. by rewrite Hf in Hs.
Qed.

(** X19.  An Option registered with [required: true] is checked after the
    tokens: when [parse] returns and the Option holds no truthy value, the
    callback has been called with "<code> is required"; when it holds one,
    the pass reports nothing for it. *)
Theorem required_flag_checked (self : OptionParser) (st : pstate)
    (k : nat) (o : Option) :
  parse self = Returned st ->
  options self !! k = Some o ->
  required o = JBool true ->
  exists o',
    st_options st !! k = Some o'
    /\ (truthy (getValue o') = false ->
        CbError (generateError (str_to_string (getCode o) +:+ " is required") None)
          ∈ st_calls st)
    /\ (truthy (getValue o') = true -> check_required (st_options st) o' = []).
Proof.
  intros Hp Hk Hreq.
  apply parse_Returned in Hp as (st0 & _ & _ & Hcalls & Hschema).
  assert (Hsym : same_schema (options self) (st_options st)) by done.
  destruct (same_schema_lookup _ _ k o Hsym Hk) as (o' & Hk' & He).
  exists o'. split; [done|].
  assert (Hr : required o' = JBool true) by (by rewrite (required_erase o' o He)).
  assert (Hcheck : check_required (st_options st) o'
            = if negb (truthy (getValue o'))
              then [CbError (generateError
                      (str_to_string (getCode o) +:+ " is required") None)]
              else []).
  { unfold check_required. rewrite Hr. simpl. by rewrite (getCode_erase o' o He). }
  split; intros Hv.
  - rewrite Hcalls, !elem_of_app. right; left.
    apply (required_pass_elem _ o'); [by eapply list_elem_of_lookup_2|].
    rewrite Hcheck, Hv. simpl. apply list_elem_of_here.
  - by rewrite Hcheck, Hv.
Qed.

(** X20.  An Option whose [required] names an id that no registered
    Option answers to is never reported by the pass over the required
    switches, with or without a value. *)
Theorem required_unknown_reference_silent (self : OptionParser) (st : pstate)
    (k : nat) (o : Option) (r : string) :
  parse self = Returned st ->
  options self !! k = Some o ->
  required o = JStr r ->
  findOption (options self) (Some r) = None ->
  exists o',
    st_options st !! k = Some o' /\ check_required (st_options st) o' = [].
Proof.
  intros Hp Hk Hreq Hnone.
  apply parse_Returned in Hp as (st0 & _ & _ & _ & Hschema).
  assert (Hsym : same_schema (options self) (st_options st)) by done.
  destruct (same_schema_lookup _ _ k o Hsym Hk) as (o' & Hk' & He).
  exists o'. split; [done|].
  unfold check_required. rewrite (required_erase o' o He), Hreq.
  rewrite (same_schema_findOption_None _ _ _ Hsym Hnone).
  by destruct (truthy (JStr r)).
Qed.

Lemma required_flag_checked_witness :
  exists o',
    st_options (state_of (parse (host [spec_must] ["prog"]))) !! 0 = Some o'
    /\ (truthy (getValue o') = false ->
        CbError (generateError
                   (str_to_string (getCode (createOption spec_must)) +:+ " is required")
                   None)
          ∈ st_calls (state_of (parse (host [spec_must] ["prog"]))))
    /\ (truthy (getValue o') = true ->
        check_required (st_options (state_of (parse (host [spec_must] ["prog"])))) o'
        = []).
Proof.
  apply (required_flag_checked (host [spec_must] ["prog"])
           (state_of (parse (host [spec_must] ["prog"]))) 0 (createOption spec_must));
    reflexivity.
Defined.

Lemma required_unknown_reference_silent_witness :
  exists o',
    st_options (state_of (parse (host [spec_dangling] ["prog"]))) !! 0 = Some o'
    /\ check_required (st_options (state_of (parse (host [spec_dangling] ["prog"])))) o'
       = [].
Proof.
  apply (required_unknown_reference_silent (host [spec_dangling] ["prog"])
           (state_of (parse (host [spec_dangling] ["prog"]))) 0
           (createOption spec_dangling) "nowhere");
    reflexivity.
Defined.

(** X21.  A help request does not end the run: when the only token
    resolves to a [help] Option (no inline value), the callback gets the
    help request first, the Option is then given [true] like any other
    switch, the required switches are checked and the final call is
    made. *)
Theorem help_request_goes_on (self : OptionParser) (p t c0 : string)
    (k : nat) (opt : Option) :
  args self = [p; t] ->
  argCode_of t None = Some c0 ->
  findOption (options self) (Some (strip_inline c0)) = Some (k, opt) ->
  type opt = help ->
  (indexOf t "=" < 1)%Z ->
  exists st,
    parse self = Returned st
    /\ st_options st = <[k := set_current (JBool true) opt]> (options self)
    /\ st_calls st =
         [CbHelp]
         ++ (if truthy (valueIsRequired opt) && negb (truthy (getValue opt))
             then [CbError (generateError
                     (strip_inline c0 +:+ " requires a value") None)]
             else [])
         ++ required_pass (st_options st)
         ++ [CbDone (st_options st)].
Proof.
  intros Hargs Hc Hf Hhelp Hidx.
  unfold parse. rewrite Hargs.
  change (length [p; t]) with 2.
  change (parse_loop [p; t] 2 (mkState (options self) [] None 1))
    with (match parse_arg [p; t] t (mkState (options self) [] None 1) with
          | Returned st' => parse_loop [p; t] 1 (set_i (S (st_i st')) st')
          | Thrown e st' => Thrown e st'
          end).
  rewrite (parse_arg_resolved [p; t] t (mkState (options self) [] None 1)
             c0 k opt Hc Hf).
  cbv zeta. unfold after_help. rewrite Hhelp.
  destruct (Z.geb_spec (indexOf t "=") 1) as [|_]; [lia|].
  simpl. destruct (truthy (valueIsRequired opt) && negb (truthy (getValue opt)));
    simpl; eexists; split_and!; reflexivity.
Qed.

Lemma help_request_goes_on_witness :
  exists st,
    parse (mkOptionParser ["prog"; "--help"] "prog"
             [createOption (OptionParams.mk (Some "help") None None None None None
                              (Some help) None JUndefined None)])
    = Returned st
    /\ error_calls (st_calls st) = []
    /\ hd CbHelp (st_calls st) = CbHelp.
Proof.
  destruct (help_request_goes_on
              (mkOptionParser ["prog"; "--help"] "prog"
                 [createOption (OptionParams.mk (Some "help") None None None None None
                                  (Some help) None JUndefined None)])
              "prog" "--help" "help" 0
              (createOption (OptionParams.mk (Some "help") None None None None None
                               (Some help) None JUndefined None)))
    as (st & Hp & Ho & Hcalls);
    [reflexivity|reflexivity|reflexivity|reflexivity|vm_compute; reflexivity|].
  exists st. split; [exact Hp|]. rewrite Hcalls, Ho. split; reflexivity.
Defined.

(** ** The constructor *)

Lemma js_or_cases (a d : jsval) : js_or a d = d \/ truthy (js_or a d) = true.
Proof. unfold js_or. destruct (truthy a) eqn:H; auto. Qed.

Lemma value_slot_cases v k d : value_slot v k d = d \/ truthy (value_slot v k d) = true.
Proof. destruct v; simpl; [apply js_or_cases|by left]. Qed.

Lemma codes_slot_None (lc sc : option string) :
  normal_slot lc -> normal_slot sc ->
  str_or (str_or lc sc) None = None <-> lc = None /\ sc = None.
Proof.
  intros [-> | (l & -> & Hl)] [-> | (c & -> & Hc)].
  - done.
  - change (str_or None (Some c)) with (Some c).
    rewrite (str_or_Some_l c None Hc). split; [done|]. by intros [_ ?].
  - rewrite !(str_or_Some_l l _ Hl). split; [done|]. by intros [? _].
  - rewrite !(str_or_Some_l l _ Hl). split; [done|]. by intros [? _].
Qed.

Lemma id_slot_None (i lc sc : option string) :
  normal_slot lc -> normal_slot sc ->
  str_or (str_or (str_or i lc) sc) None = None
  <-> lc = None /\ sc = None /\ (i = None \/ i = Some "").
Proof.
  intros Hlc Hsc. destruct i as [x|].
  - destruct (String.eqb_spec x "") as [->|Hx].
    + change (str_or (Some "") lc) with lc.
      rewrite (codes_slot_None lc sc Hlc Hsc). intuition auto.
    + apply String.eqb_neq in Hx. rewrite !(str_or_Some_l x _ Hx).
      split; [done|]. intros (_ & _ & [? | Hs]); [done|].
      injection Hs as ->. by rewrite String.eqb_refl in Hx.
  - change (str_or None lc) with lc.
    rewrite (codes_slot_None lc sc Hlc Hsc). intuition auto.
Qed.

(** X22.  What the constructor leaves in an Option: each code, the
    description and the id are [null] or a non-empty string; each value
    slot holds its fallback ([null], or [false] for the two [required]
    slots) or a truthy value; and the id is [null] only when the spec
    gave no id, no long code and no short code. *)
Theorem createOption_slots (op : OptionParams.t) :
  normal_slot (longCode (createOption op))
  /\ normal_slot (shortCode (createOption op))
  /\ normal_slot (description (createOption op))
  /\ normal_slot (id (createOption op))
  /\ (getValue (createOption op) = JNull
      \/ truthy (getValue (createOption op)) = true)
  /\ (hasDefaultValue (createOption op) = JNull
      \/ truthy (hasDefaultValue (createOption op)) = true)
  /\ (valueIsRequired (createOption op) = JBool false
      \/ truthy (valueIsRequired (createOption op)) = true)
  /\ (required (createOption op) = JBool false
      \/ truthy (required (createOption op)) = true)
  /\ (id (createOption op) = None
      <-> longCode (createOption op) = None /\ shortCode (createOption op) = None
          /\ (OptionParams.id op = None \/ OptionParams.id op = Some "")).
Proof.
  unfold getValue, hasDefaultValue, valueIsRequired, createOption.
  cbn [longCode shortCode description id value required
       Value.current Value.default Value.required].
  split_and!; try apply str_or_None_cases; try apply value_slot_cases;
    try apply js_or_cases.
  apply id_slot_None; apply str_or_None_cases.
Qed.

(** ** The banner *)



(** X24.  A separator whose description starts with [--] or with [ --]
    prints a line break and a rule that is 80 characters wide in both
    styles (80 hyphens, or 3 spaces and 77 hyphens), then as many line
    breaks as [data.length] says, one when there is none (or zero). *)
Theorem separator_rule (e : Entry) (d : string) :
  description (entry_option e) = Some d ->
  startsWith d "--" = true \/ startsWith d " --" = true ->
  (length_or_1 e < 2 ^ 31)%Z ->
  exists rule,
    OptionType_separator e
    = nl +:+ rule +:+ copies (Z.to_nat (length_or_1 e)) nl
    /\ String.length rule = 80
    /\ (startsWith d "--" = true -> rule = copies 80 "-")
    /\ (startsWith d "--" = false -> rule = "   " +:+ copies 77 "-").
Proof.
  intros Hd Hstart Hlen. unfold OptionType_separator. rewrite Hd.
  rewrite (String_repeat_copies_aux nl (length_or_1 e) Hlen).
  assert (Hne : (d =? "") = false).
  { apply String.eqb_neq. intros ->. by destruct Hstart. }
  rewrite Hne.
  destruct (startsWith d "--") eqn:H2.
  - exists (copies 80 "-"). split_and!; [|done|done|done].
    change (String_repeat "-" 80) with (copies 80 "-"). by rewrite append_assoc.
  - destruct Hstart as [|H3]; [done|]. rewrite H3.
    exists ("   " +:+ copies 77 "-"). split_and!; [|done|done|done].
    change (String_repeat "-" 77) with (copies 77 "-"). by rewrite !append_assoc.
Qed.

Lemma separator_rule_witness :
  exists rule,
    OptionType_separator
      (createEntry (OptionParams.mk None None None None (Some " --") None
                      (Some separator) None JUndefined (Some "sep4")) None (Some 1%Z))
    = nl +:+ rule +:+ copies 1 nl
    /\ String.length rule = 80
    /\ (startsWith " --" "--" = true -> rule = copies 80 "-")
    /\ (startsWith " --" "--" = false -> rule = "   " +:+ copies 77 "-").
Proof.
  apply (separator_rule
           (createEntry (OptionParams.mk None None None None (Some " --") None
                           (Some separator) None JUndefined (Some "sep4"))
              None (Some 1%Z)) " --").
  - reflexivity.
  - right. reflexivity.
  - reflexivity.
Defined.

(** ** The configuration the host reads back *)

Lemma getId_erase o o' : erase o = erase o' -> getId o = getId o'.
Proof. intros H. change (getId (erase o) = getId (erase o')). by rewrite H. Qed.

Lemma config_set_other (k x : string) (v : jsval) (c : config) :
  k <> x -> own (config_set k v c) !! x = own c !! x.
Proof.
  intros H. unfold config_set.
  destruct ((k =? "__proto__") && has_prototype c); simpl; [done|].
  by apply lookup_insert_ne.
Qed.

Lemma config_set_same (x : string) (v : jsval) (c : config) :
  x <> "__proto__" -> own (config_set x v c) !! x = Some v.
Proof.
  intros H. unfold config_set. apply String.eqb_neq in H. rewrite H. simpl.
  apply lookup_insert_eq.
Qed.

Lemma config_fold_other (l : list Option) (c : config) (x : string) :
  (forall o, o ∈ l -> property_key (getId o) <> x) ->
  own (fold_left (fun c opt => config_set (property_key (getId opt)) (getValue opt) c)
         l c) !! x = own c !! x.
Proof.
  revert c. induction l as [|o l IH]; intros c H; simpl; [done|].
  rewrite IH.
  - apply config_set_other. apply H. apply list_elem_of_here.
  - intros o' Ho'. apply H. by apply list_elem_of_further.
Qed.

Lemma build_config_lookup (opts : list Option) (k : nat) (o : Option) :
  opts !! k = Some o ->
  property_key (getId o) <> "__proto__" ->
  (forall j o', k < j -> opts !! j = Some o' ->
     property_key (getId o') <> property_key (getId o)) ->
  own (build_config opts) !! property_key (getId o) = Some (getValue o).
Proof.
  intros Hk Hproto Hlater. unfold build_config.
  rewrite <- (take_drop_middle opts k o Hk), fold_left_app. simpl.
  rewrite config_fold_other; [by apply config_set_same|].
  intros o' Ho'. apply list_elem_of_lookup in Ho' as [j Hj].
  rewrite lookup_drop in Hj. apply (Hlater (S k + j)); [lia|done].
Qed.

(** X26.  From registration to the host: in a registry built by
    [addOption] from an empty one, once [parse] has returned, the
    configuration object built from the options has, for each Option, an
    own property named by its normalized id that holds its value.  This
    is for ids other than the text [null], which is also the key of an
    Option without id, and [__proto__], which names no own property of a
    plain object. *)
Theorem config_of_registered (adds : list addArg) (argv : list string)
    (st : pstate) (k : nat) (o : Option) (x : string) :
  parse (register adds (create argv)) = Returned st ->
  st_options st !! k = Some o ->
  getId o = Some x -> x <> "null" -> x <> "__proto__" ->
  own (build_config (st_options st)) !! x = Some (getValue o).
Proof.
  intros Hp Hk Hid Hx Hproto.
  destruct (register_invariant adds (create argv)) as [Hres _].
  { split; [by intros ? ? ?|constructor]. }
  apply parse_Returned in Hp as (st0 & _ & _ & _ & Hschema).
  change x with (property_key (Some x)). rewrite <- Hid.
  apply (build_config_lookup _ k); [done|by rewrite Hid|].
  intros j o' Hj Hj' Hkey.
  assert (Hsame : getId o' = getId o).
  { rewrite Hid in *. destruct (getId o') as [y|]; simpl in Hkey; congruence. }
  destruct (same_schema_lookup _ _ k o Hschema Hk) as (o0 & Hk0 & He0).
  destruct (same_schema_lookup _ _ j o' Hschema Hj') as (o1 & Hj1 & He1).
  pose proof (Hres k o0 Hk0) as F0. pose proof (Hres j o1 Hj1) as F1.
  rewrite (getId_erase _ _ He0) in F0. rewrite (getId_erase _ _ He1), Hsame in F1.
  rewrite F0 in F1. injection F1 as ->. lia.
Qed.

(** A value written under [__proto__] is not stored. *)
Lemma config_proto_not_stored (v : jsval) :
  own (config_set "__proto__" v empty_config) !! "__proto__" = None.
Proof. done. Qed.

Lemma config_of_registered_witness :
  own (build_config
         (st_options (state_of (parse (register [Many [spec_url; spec_format]]
                                         (create ["prog"; "--url"; "http://x"]))))))
    !! "url"
  = Some (getValue (set_current (JStr "http://x") (createOption spec_url))).
Proof.
  apply (config_of_registered [Many [spec_url; spec_format]]
           ["prog"; "--url"; "http://x"]
           (state_of (parse (register [Many [spec_url; spec_format]]
                               (create ["prog"; "--url"; "http://x"]))))
           0 (set_current (JStr "http://x") (createOption spec_url)) "url");
    solve [reflexivity | discriminate].
Defined.

(** ** Required pairs, from the tokens *)














